(** * Anagramma: a verified model of [anagramma.js]

    The development embeds the functions of [src/anagramma.js]
    ([normalizza], [sonoAnagrammi], [permutazioni], [generaAnagrammi],
    [contaAnagrammi], [chiaveAnagramma], [raggruppaAnagrammi],
    [mescolaLettere], [anagrammaCasuale]) and proves their properties.

    Conventions of the embedding.
    - A JavaScript string is its sequence of UTF-16 code units, a
      [list N]; [split('')] yields one element per code unit and
      [join('')] concatenates them back.
    - Arrays are lists; no bound is put on their length.
    - Lengths, loop counters and occurrence counts stay below 2^53, where
      Number arithmetic is exact: they are [nat].  The factorials and their
      quotient in [contaAnagrammi] are IEEE 754 binary64 values, as every
      JavaScript Number is: they are [float] (the kernel's primitive
      binary64, rounding to nearest even).
    - A plain object is the list of its own properties in creation order;
      enumeration ([Object.values], [Object.entries]) lists array-index
      keys first, in ascending numeric order, then the other keys in
      creation order.
    - [String.prototype.toLowerCase] is defined by ECMA-262 from the
      Unicode Character Database, which is not part of the repository:
      the per-code-point lowercase mapping (with its context, as the
      Final_Sigma rule needs) is a parameter of the program, and [ucd]
      below is the fragment of the database used for closed examples. *)

From Stdlib Require Import Ascii String.
From Stdlib Require Import List NArith ZArith Arith Bool Lia.
From Stdlib Require Import Permutation Sorted.
From Stdlib Require Import Floats.
Import ListNotations.

Set Implicit Arguments.

(** ** Strings as sequences of UTF-16 code units *)

Definition jsstring := list N.

(** An ASCII literal as a JavaScript string. *)
Definition js (s : string) : jsstring :=
  List.map N_of_ascii (list_ascii_of_string s).

Fixpoint jsstring_eqb (a b : jsstring) : bool :=
  match a, b with
  | [], [] => true
  | x :: a', y :: b' => N.eqb x y && jsstring_eqb a' b'
  | _, _ => false
  end.

(** [str.split('')]: the array of the code units of the string. *)
Definition split (str : jsstring) : list N := str.

(** [array.join('')] on an array of one-unit strings. *)
Definition join (array : list N) : jsstring := array.

(** ** UTF-16 (ECMA-262, 6.1.4 and 11.1) *)

Definition isLeadingSurrogate (u : N) : bool :=
  (N.leb 0xD800 u && N.leb u 0xDBFF)%N.

Definition isTrailingSurrogate (u : N) : bool :=
  (N.leb 0xDC00 u && N.leb u 0xDFFF)%N.

Definition isSurrogate (u : N) : bool :=
  (N.leb 0xD800 u && N.leb u 0xDFFF)%N.

Definition UTF16SurrogatePairToCodePoint (lead trail : N) : N :=
  ((lead - 0xD800) * 0x400 + (trail - 0xDC00) + 0x10000)%N.

(** A surrogate pair is one code point; an unpaired surrogate is the code
    point of its own value. *)
Fixpoint StringToCodePoints (s : jsstring) : list N :=
  match s with
  | [] => []
  | u :: rest =>
      match rest with
      | v :: rest' =>
          if isLeadingSurrogate u && isTrailingSurrogate v
          then UTF16SurrogatePairToCodePoint u v :: StringToCodePoints rest'
          else u :: StringToCodePoints rest
      | [] => [u]
      end
  end.

Definition UTF16EncodeCodePoint (cp : N) : jsstring :=
  if (cp <=? 0xFFFF)%N then [cp]
  else [((cp - 0x10000) / 0x400 + 0xD800)%N;
        ((cp - 0x10000) mod 0x400 + 0xDC00)%N].

Definition CodePointsToString (cps : list N) : jsstring :=
  flat_map UTF16EncodeCodePoint cps.

(** [String.prototype.isWellFormed]: no unpaired surrogate. *)
Fixpoint isWellFormed (s : jsstring) : bool :=
  match s with
  | [] => true
  | u :: rest =>
      match rest with
      | v :: rest' =>
          if isLeadingSurrogate u && isTrailingSurrogate v
          then isWellFormed rest'
          else negb (isSurrogate u) && isWellFormed rest
      | [] => negb (isSurrogate u)
      end
  end.

(** ** White space: the class [\s] of a regular expression, which is also
    what [trim] strips (WhiteSpace and LineTerminator, ECMA-262 12.2-12.3) *)

Definition isWhiteSpace (u : N) : bool :=
  ((9 <=? u) && (u <=? 13)
   || (u =? 0x20) || (u =? 0xA0) || (u =? 0x1680)
   || (0x2000 <=? u) && (u <=? 0x200A)
   || (u =? 0x2028) || (u =? 0x2029) || (u =? 0x202F) || (u =? 0x205F)
   || (u =? 0x3000) || (u =? 0xFEFF))%N.

(** [str.replace(/\s+/g, '')]: every run of white space is deleted. *)
Definition replace_spazi (str : jsstring) : jsstring :=
  filter (fun u => negb (isWhiteSpace u)) str.

Fixpoint trimStart (str : jsstring) : jsstring :=
  match str with
  | [] => []
  | u :: rest => if isWhiteSpace u then trimStart rest else str
  end.

(** [str.trim()] *)
Definition trim (str : jsstring) : jsstring :=
  rev (trimStart (rev (trimStart str))).

(** ** [Array.prototype.sort()] on one-unit strings: ascending code units.
    The result of the built-in is fixed by its contract (a sorted
    permutation of the array); insertion sort computes it. *)

Fixpoint Array_sort_insert (u : N) (sorted : list N) : list N :=
  match sorted with
  | [] => [u]
  | v :: rest => if (u <=? v)%N then u :: sorted else v :: Array_sort_insert u rest
  end.

Fixpoint Array_sort (array : list N) : list N :=
  match array with
  | [] => []
  | u :: rest => Array_sort_insert u (Array_sort rest)
  end.

(** ** The fragment of the Unicode Character Database used for closed
    examples: Basic Latin, Latin-1 Supplement (the Italian accented
    letters), the Greek alphabet with the Final_Sigma rule of
    SpecialCasing.txt, and Deseret (letters outside the Basic Multilingual
    Plane).  Every other code point, unpaired surrogates included, has no
    lowercase mapping. *)

Module UCD.

Local Open Scope N_scope.

Definition between (lo hi c : N) : bool := (lo <=? c) && (c <=? hi).

Definition Cased (c : N) : bool :=
  between 0x41 0x5A c || between 0x61 0x7A c
  || (c =? 0xAA) || (c =? 0xB5) || (c =? 0xBA)
  || between 0xC0 0xFF c && negb (c =? 0xD7) && negb (c =? 0xF7)
  || between 0x391 0x3A9 c && negb (c =? 0x3A2)
  || between 0x3B1 0x3C9 c
  || between 0x10400 0x1044F c.

Definition Case_Ignorable (c : N) : bool :=
  (c =? 0x27) || (c =? 0x2E) || (c =? 0x3A) || (c =? 0x5E) || (c =? 0x60)
  || (c =? 0xA8) || (c =? 0xAD) || (c =? 0xAF) || (c =? 0xB4)
  || (c =? 0xB7) || (c =? 0xB8).

(** Walks away from the sigma over case-ignorable code points and tells
    whether the first other code point is cased. *)
Fixpoint casedAfterIgnorable (cps : list N) : bool :=
  match cps with
  | [] => false
  | c :: rest =>
      if Case_Ignorable c then casedAfterIgnorable rest else Cased c
  end.

(** [before] holds the preceding code points, the nearest first. *)
Definition Final_Sigma (before after : list N) : bool :=
  casedAfterIgnorable before && negb (casedAfterIgnorable after).

Definition toLowercase (before : list N) (c : N) (after : list N) : list N :=
  if between 0x41 0x5A c then [c + 32]
  else if between 0xC0 0xDE c && negb (c =? 0xD7) then [c + 32]
  else if c =? 0x3A3 then
         if Final_Sigma before after then [0x3C2] else [0x3C3]
  else if between 0x391 0x3A9 c && negb (c =? 0x3A2) then [c + 32]
  else if between 0x10400 0x10427 c then [c + 40]
  else [c].

End UCD.

Definition ucd := UCD.toLowercase.

(** ** Arrays with holes

    An element read outside the array, or at a hole, is [undefined]; an
    assignment beyond the end extends the array with holes.  Only
    [mescolaLettere] assigns by index. *)

Section Array.

Variable A : Type.

Definition array_get (array : list (option A)) (i : nat) : option A :=
  nth i array None.

Definition array_set (array : list (option A)) (i : nat) (v : option A)
  : list (option A) :=
  if i <? length array
  then firstn i array ++ v :: skipn (i + 1) array
  else array ++ repeat None (i - length array) ++ [v].

End Array.

(** [array.join('')] when elements may be [undefined]: these print as the
    empty string. *)
Definition join_undefined (array : list (option N)) : jsstring :=
  flat_map (fun e => match e with Some u => [u] | None => [] end) array.

(** ** [new Set(array)] spread back into an array: the distinct strings in
    the order of their first occurrence *)

Definition Set_add (set : list jsstring) (x : jsstring) : list jsstring :=
  if existsb (jsstring_eqb x) set then set else set ++ [x].

Definition Set_of (array : list jsstring) : list jsstring :=
  fold_left Set_add array [].

(** ** Plain objects *)

(** The names a plain object inherits from [Object.prototype]. *)
Definition Object_prototype : list jsstring :=
  List.map js
    ["constructor"; "__defineGetter__"; "__defineSetter__";
     "hasOwnProperty"; "__lookupGetter__"; "__lookupSetter__";
     "isPrototypeOf"; "propertyIsEnumerable"; "toString"; "valueOf";
     "__proto__"; "toLocaleString"]%string.

(** An array index is the canonical decimal of an integer below 2^32 - 1
    (ECMA-262, 6.1.7). *)
Definition digit (u : N) : option N :=
  if ((0x30 <=? u) && (u <=? 0x39))%N then Some (u - 0x30)%N else None.

Fixpoint decimal (acc : N) (k : jsstring) : option N :=
  match k with
  | [] => Some acc
  | u :: rest =>
      match digit u with
      | Some d => decimal (acc * 10 + d)%N rest
      | None => None
      end
  end.

Definition arrayIndex (k : jsstring) : option N :=
  match k with
  | [] => None
  | u :: rest =>
      if (u =? 0x30)%N && negb (Nat.eqb (length rest) 0) then None
      else match decimal 0 k with
           | Some n => if (n <=? 4294967294)%N then Some n else None
           | None => None
           end
  end.

Definition isArrayIndex (k : jsstring) : bool :=
  match arrayIndex k with Some _ => true | None => false end.

Section Object.

Variable V : Type.

(** Own properties, in the order of their creation. *)
Definition object := list (jsstring * V).

Inductive property :=
| Own (v : V)
| Inherited
| Undefined.

Fixpoint getOwn (o : object) (k : jsstring) : option V :=
  match o with
  | [] => None
  | (k', v) :: rest => if jsstring_eqb k' k then Some v else getOwn rest k
  end.

(** [o[k]] read: an own property, else one of [Object.prototype]. *)
Definition get (o : object) (k : jsstring) : property :=
  match getOwn o k with
  | Some v => Own v
  | None =>
      if existsb (jsstring_eqb k) Object_prototype then Inherited
      else Undefined
  end.

(** [o[k] = v]: an existing property keeps its place, a new one is
    created last. *)
Fixpoint set (o : object) (k : jsstring) (v : V) : object :=
  match o with
  | [] => [(k, v)]
  | (k', v') :: rest =>
      if jsstring_eqb k' k then (k', v) :: rest
      else (k', v') :: set rest k v
  end.

Fixpoint insertByIndex (i : N) (e : jsstring * V)
  (sorted : list (N * (jsstring * V))) : list (N * (jsstring * V)) :=
  match sorted with
  | [] => [(i, e)]
  | (i', e') :: rest =>
      if (i <=? i')%N then (i, e) :: sorted
      else (i', e') :: insertByIndex i e rest
  end.

Fixpoint indexProperties (o : object) : list (N * (jsstring * V)) :=
  match o with
  | [] => []
  | e :: rest =>
      match arrayIndex (fst e) with
      | Some i => insertByIndex i e (indexProperties rest)
      | None => indexProperties rest
      end
  end.

(** [Object.entries(o)], in the order of OrdinaryOwnPropertyKeys
    (ECMA-262, 10.1.11.1): array indices ascending, then the other keys
    in creation order. *)
Definition entries (o : object) : list (jsstring * V) :=
  List.map snd (indexProperties o)
  ++ filter (fun e => negb (isArrayIndex (fst e))) o.

Definition keys (o : object) : list jsstring := List.map fst (entries o).

Definition values (o : object) : list V := List.map snd (entries o).

End Object.

Arguments Inherited {V}.
Arguments Undefined {V}.

(** ** Numbers *)

(** The Number of an integer: the nearest binary64 value (the integer
    itself below 2^53). *)
Definition Number_of_Z (z : Z) : float :=
  SF2Prim (binary_normalize prec emax z 0 false).

Definition Number_of_nat (n : nat) : float := Number_of_Z (Z.of_nat n).

(** The integer a Number denotes, when it is finite and integral. *)
Definition Number_to_Z (x : float) : option Z :=
  match Prim2SF x with
  | S754_zero _ => Some 0%Z
  | S754_finite s m e =>
      let v := if s then Z.neg m else Z.pos m in
      match e with
      | Z0 => Some v
      | Zpos p => Some (v * 2 ^ Zpos p)%Z
      | Zneg p =>
          if (v mod 2 ^ Zpos p =? 0)%Z then Some (v / 2 ^ Zpos p)%Z
          else None
      end
  | _ => None
  end.

(** The arrow function [fattoriale] of [contaAnagrammi]: [result *= i]
    for [i] from 2 to [n]. *)
Definition fattoriale (n : nat) : float :=
  if n <=? 1 then 1%float
  else fold_left (fun result i => (result * Number_of_nat i)%float)
         (seq 2 (n - 1)) 1%float.

(** ** The permutation engine *)

Section Permutazioni.

Variable A : Type.

(** [[...array.slice(0, i), ...array.slice(i + 1)]] *)
Definition resto (array : list A) (i : nat) : list A :=
  firstn i array ++ skipn (i + 1) array.

(** The recursion of [permutazioni] is on an array one element shorter:
    [fuel] bounds its depth, and the length of the array is enough. *)
Fixpoint permutazioni_da (fuel : nat) (array : list A) : list (list A) :=
  if length array <=? 1 then [array]
  else
    match fuel with
    | O => []
    | S fuel' =>
        flat_map
          (fun i =>
             match nth_error array i with
             | Some elemento =>
                 List.map (cons elemento)
                   (permutazioni_da fuel' (resto array i))
             | None => []
             end)
          (seq 0 (length array))
    end.

Definition permutazioni (array : list A) : list (list A) :=
  permutazioni_da (length array) array.

(** The body of [permutazioni] in the source, over its recursive call. *)
Definition corpo (rec : list A -> list (list A)) (array : list A)
  : list (list A) :=
  if length array <=? 1 then [array]
  else
    flat_map
      (fun i =>
         match nth_error array i with
         | Some elemento => List.map (cons elemento) (rec (resto array i))
         | None => []
         end)
      (seq 0 (length array)).

End Permutazioni.

(** ** The program *)

Section Anagramma.

(** The lowercase mapping of a code point between the code points that
    precede it (nearest first) and those that follow it. *)
Variable toLowercase : list N -> N -> list N -> list N.

Fixpoint lowercaseFrom (before cps : list N) : list N :=
  match cps with
  | [] => []
  | c :: after =>
      toLowercase before c after ++ lowercaseFrom (c :: before) after
  end.

(** [str.toLowerCase()] (ECMA-262, 22.1.3.28): code points of the
    string, their lowercase mappings, back to code units. *)
Definition toLowerCase (str : jsstring) : jsstring :=
  CodePointsToString (lowercaseFrom [] (StringToCodePoints str)).

Definition normalizza (parola : jsstring) : jsstring :=
  trim (replace_spazi (toLowerCase parola)).

Definition ordina (str : jsstring) : jsstring := join (Array_sort (split str)).

Definition sonoAnagrammi (parola1 parola2 : jsstring) : bool :=
  let p1 := normalizza parola1 in
  let p2 := normalizza parola2 in
  if negb (Nat.eqb (length p1) (length p2)) then false
  else jsstring_eqb (ordina p1) (ordina p2).

(** The advisory of [generaAnagrammi] on the console (it does not change
    the result). *)
Definition generaAnagrammi_avviso (parola : jsstring) : bool :=
  10 <? length (normalizza parola).

Definition generaAnagrammi (parola : jsstring) (unicoRisultato : bool)
  : list jsstring :=
  let parolaNormalizzata := normalizza parola in
  let lettere := split parolaNormalizzata in
  let tuttePermutazioni := permutazioni lettere in
  let anagrammi := List.map join tuttePermutazioni in
  if unicoRisultato then Set_of anagrammi else anagrammi.

(** [conteggio[lettera] = (conteggio[lettera] || 0) + 1].  The key is one
    code unit long, so it names no property of [Object.prototype]
    ([get_unit_not_inherited]). *)
Definition conta_lettera (conteggio : object nat) (lettera : N)
  : object nat :=
  set conteggio [lettera]
    (match get conteggio [lettera] with
     | Own c => c
     | _ => 0
     end + 1).

Definition contaAnagrammi (parola : jsstring) : float :=
  let parolaNormalizzata := normalizza parola in
  let lettere := split parolaNormalizzata in
  let conteggio := fold_left conta_lettera lettere [] in
  let numeratore := fattoriale (length lettere) in
  let denominatore :=
    fold_left (fun denominatore count => (denominatore * fattoriale count)%float)
      (values conteggio) 1%float in
  (numeratore / denominatore)%float.

Definition chiaveAnagramma (parola : jsstring) : jsstring :=
  join (Array_sort (split (normalizza parola))).

(** One turn of the first loop of [raggruppaAnagrammi].  [None] is the
    TypeError of [gruppi[chiave].push] when [gruppi[chiave]] is an
    inherited property, which is no array. *)
Definition raggruppa_parola (gruppi : option (object (list jsstring)))
  (parola : jsstring) : option (object (list jsstring)) :=
  match gruppi with
  | None => None
  | Some gruppi =>
      let chiave := chiaveAnagramma parola in
      let gruppi :=
        match get gruppi chiave with
        | Undefined => set gruppi chiave []
        | _ => gruppi
        end in
      match get gruppi chiave with
      | Own gruppo => Some (set gruppi chiave (gruppo ++ [parola]))
      | _ => None
      end
  end.

Definition filtra_gruppo (risultato : object (list jsstring))
  (e : jsstring * list jsstring) : object (list jsstring) :=
  let (chiave, gruppo) := e in
  if 1 <? length gruppo then set risultato chiave gruppo else risultato.

Definition raggruppaAnagrammi (parole : list jsstring)
  : option (object (list jsstring)) :=
  match fold_left raggruppa_parola parole (Some []) with
  | None => None
  | Some gruppi => Some (fold_left filtra_gruppo (entries gruppi) [])
  end.

End Anagramma.

(** ** The shuffle

    [estrai i] is the value of [Math.floor(Math.random() * (i + 1))] at
    the turn of the loop with index [i]; each index has one turn. *)

Section Mescola.

Variable estrai : nat -> nat.

(** [[lettere[i], lettere[j]] = [lettere[j], lettere[i]]] *)
Definition scambia (lettere : list (option N)) (i j : nat)
  : list (option N) :=
  let a := array_get lettere j in
  let b := array_get lettere i in
  array_set (array_set lettere i a) j b.

Definition mescolaLettere (parola : jsstring) : jsstring :=
  let lettere := List.map Some (split parola) in
  let lettere :=
    fold_left (fun lettere i => scambia lettere i (estrai i))
      (rev (seq 1 (length lettere - 1))) lettere in
  join_undefined lettere.

End Mescola.

Definition anagrammaCasuale (toLowercase : list N -> N -> list N -> list N)
  (estrai : nat -> nat) (parola : jsstring) : jsstring :=
  mescolaLettere estrai (normalizza toLowercase parola).

(** [esempiAnagrammiItaliani]: the pairs [originale], [anagramma]. *)
Definition esempiAnagrammiItaliani : list (jsstring * jsstring) :=
  List.map (fun p : string * string => (js (fst p), js (snd p)))
    [("amor", "roma"); ("arte", "rate"); ("cane", "acne"); ("cosa", "caos");
     ("lago", "gola"); ("male", "lame"); ("nave", "vena"); ("pane", "pena");
     ("riso", "siro"); ("vita", "vati")]%string.

(** The word list of the grouping example. *)
Definition parole_demo : list jsstring :=
  List.map js ["roma"; "amor"; "mora"; "cane"; "acne"; "casa"]%string.

(** * Vocabulary of the statements *)

(** ** Letters and their occurrences *)

Definition occorrenze (a : N) (l : list N) : nat := count_occ N.eq_dec l a.

(** [l] without the first occurrence of [a]. *)
Fixpoint togli (a : N) (l : list N) : list N :=
  match l with
  | [] => []
  | x :: l' => if N.eq_dec x a then l' else x :: togli a l'
  end.

(** The product of the factorials of the occurrences in [l] of the
    letters of [S]. *)
Definition prodotto_fattoriali (S l : list N) : nat :=
  fold_right (fun a acc => fact (occorrenze a l) * acc) 1 S.

(** The multinomial coefficient n! / (k1! * ... * km!) of a word. *)
Definition multinomiale (l : list N) : nat :=
  fact (length l) / prodotto_fattoriali (nodup N.eq_dec l) l.

(** The number of distinct orderings the engine yields for [l]. *)
Definition distinti (l : list N) : nat :=
  length (Set_of (permutazioni l)).

(** The letters of a word in the order of their first occurrence. *)
Definition primi_add (visti : list N) (a : N) : list N :=
  if existsb (N.eqb a) visti then visti else visti ++ [a].

Definition primi (l : list N) : list N := fold_left primi_add l [].

(** The object whose keys are the letters of [S], each with value [f]. *)
Definition tabella (f : N -> nat) (S : list N) : object nat :=
  List.map (fun a => ([a], f a)) S.

(** ** Exact integers in binary64

    The count of a word of at most [limite] letters only forms products
    and a quotient of factorials that binary64 holds exactly.  [stati]
    lists the pairs (letters counted so far, product of the factorials so
    far) that the loop over the occurrence counts can reach, by the number
    of counts consumed; [coppie] pairs each with a possible next count. *)

Fixpoint factZ (n : nat) : Z :=
  match n with
  | O => 1%Z
  | S k => (Z.of_nat (S k) * factZ k)%Z
  end.

Definition limite : nat := 22.

Definition stato : Type := (nat * Z)%type.

Definition avanza (st : stato) (k : nat) : stato :=
  (fst st + k, (snd st * factZ k)%Z).

Definition passi (st : stato) : list stato :=
  List.map (avanza st) (seq 1 (limite - fst st)).

Definition stato_eqb (a b : stato) : bool :=
  Nat.eqb (fst a) (fst b) && Z.eqb (snd a) (snd b).

Fixpoint distinti_stati (l : list stato) : list stato :=
  match l with
  | [] => []
  | x :: r =>
      if existsb (stato_eqb x) r then distinti_stati r
      else x :: distinti_stati r
  end.

Fixpoint livelli (n : nat) (cur : list stato) : list (list stato) :=
  match n with
  | O => [cur]
  | S n' => cur :: livelli n' (distinti_stati (flat_map passi cur))
  end.

Definition livelli_tutti : list (list stato) := livelli limite [(0, 1%Z)].

Definition stati : list stato := concat livelli_tutti.

Definition coppie : list (stato * nat) :=
  flat_map (fun st => List.map (pair st) (seq 1 (limite - fst st))) stati.

Definition prodottoZ (vs : list nat) (P : Z) : Z :=
  fold_left (fun P c => (P * factZ c)%Z) vs P.

(** The loop [denominatore *= fattoriale(count)] from [d]. *)
Definition denominatore_da (vs : list nat) (d : float) : float :=
  fold_left (fun denominatore count => (denominatore * fattoriale count)%float)
    vs d.

(** ** Keys and groups *)

Fixpoint ordinato (s : list N) : bool :=
  match s with
  | [] => true
  | u :: rest =>
      match rest with
      | [] => true
      | v :: _ => (u <=? v)%N && ordinato rest
      end
  end.

Definition almeno_due (e : jsstring * list jsstring) : bool :=
  1 <? length (snd e).

(** Two array-index keys in ascending numeric order. *)
Definition indice_le (a b : jsstring) : Prop :=
  match arrayIndex a, arrayIndex b with
  | Some i, Some j => (i <= j)%N
  | _, _ => False
  end.

Section VocabolarioOggetti.

Variable V : Type.

(** The object whose keys are [K], each with value [f]. *)
Definition tabellaK (f : jsstring -> V) (K : list jsstring) : object V :=
  List.map (fun k => (k, f k)) K.

Definition ben_indicizzata (ie : N * (jsstring * V)) : Prop :=
  arrayIndex (fst (snd ie)) = Some (fst ie).

Definition le_indice (a b : N * (jsstring * V)) : Prop := (fst a <= fst b)%N.

End VocabolarioOggetti.

Arguments ben_indicizzata {V} ie.
Arguments le_indice {V} a b.

(** ** Strings *)

Definition senza_spazi (s : jsstring) : Prop :=
  Forall (fun u => isWhiteSpace u = false) s.

Definition senza_surrogati (s : jsstring) : Prop :=
  Forall (fun u => isSurrogate u = false) s.

(** [s] is the sorted sequence of [l]: its rearrangement in ascending
    order of code units (or code points). *)
Definition ordinamento_di (s l : list N) : Prop :=
  StronglySorted N.le s /\ Permutation s l.

(** A JavaScript string holds 16-bit code units. *)
Definition stringa_valida (s : jsstring) : Prop :=
  Forall (fun u => (u <= 0xFFFF)%N) s.

(** A Unicode scalar value. *)
Definition scalare (c : N) : bool :=
  (c <=? 0x10FFFF)%N && negb (isSurrogate c).

(** Assignment inside the bounds of an array without holes. *)
Definition aggiorna (l : list N) (i : nat) (v : N) : list N :=
  firstn i l ++ v :: skipn (i + 1) l.

Section Vocabolario.

Variable toLowercase : list N -> N -> list N -> list N.

(** The words of [parole] whose key is [k], in their order. *)
Definition gruppo_di (parole : list jsstring) (k : jsstring) : list jsstring :=
  filter (fun w => jsstring_eqb (chiaveAnagramma toLowercase w) k) parole.

(** The keys of [parole] in the order of their first occurrence. *)
Definition chiavi (parole : list jsstring) : list jsstring :=
  Set_of (List.map (chiaveAnagramma toLowercase) parole).

(** The keys of the groups that survive, in the order of their first
    occurrence in the word list. *)
Definition chiavi_gruppi (parole : list jsstring) : list jsstring :=
  filter (fun k => 1 <? length (gruppo_di parole k)) (chiavi parole).

(** The lowercase mapping does not look at the context on the code
    points of [s]. *)
Definition senza_contesto (s : list N) : Prop :=
  forall c, In c s ->
    forall before after, toLowercase before c after = toLowercase [] c [].

(** What the theorems on lowercase strings need of the mapping: a code
    point it produces is mapped to itself wherever it stands, and the
    mapping of a scalar value is made of scalar values. *)
Definition mappa_stabile : Prop :=
  forall before c after x, In x (toLowercase before c after) ->
    forall before' after', toLowercase before' x after' = [x].

Definition mappa_scalare : Prop :=
  forall before c after x, scalare c = true ->
    In x (toLowercase before c after) -> scalare x = true.

Definition minuscolo (c : N) : Prop :=
  forall before after, toLowercase before c after = [c].

End Vocabolario.

Ltac confronti :=
  repeat match goal with
    | |- context [N.leb ?a ?b] => destruct (N.leb_spec a b); try lia
    | |- context [N.eqb ?a ?b] => destruct (N.eqb_spec a b); try lia
    | H : context [N.leb ?a ?b] |- _ => destruct (N.leb_spec a b); try lia
    | H : context [N.eqb ?a ?b] |- _ => destruct (N.eqb_spec a b); try lia
    end.

(** * Lemmas *)

(** ** Strings and sorting *)

Lemma jsstring_eqb_eq (a b : jsstring) : jsstring_eqb a b = true <-> a = b.
Proof.
  revert b; induction a as [|x a IH]; intros [|y b]; simpl; split; try easy.
  - intros H. apply andb_prop in H as [Hx Hab].
    apply N.eqb_eq in Hx. apply IH in Hab. now subst.
  - intros H. injection H as -> ->. rewrite N.eqb_refl. now apply IH.
Qed.

Lemma Array_sort_insert_perm u l : Permutation (Array_sort_insert u l) (u :: l).
Proof.
  induction l as [|v l IH]; simpl; [reflexivity|].
  destruct (u <=? v)%N; [reflexivity|].
  rewrite IH. apply perm_swap.
Qed.

Lemma Array_sort_perm l : Permutation (Array_sort l) l.
Proof.
  induction l as [|u l IH]; simpl; [constructor|].
  rewrite Array_sort_insert_perm. now constructor.
Qed.

Lemma Array_sort_insert_sorted u l :
  StronglySorted N.le l -> StronglySorted N.le (Array_sort_insert u l).
Proof.
  induction 1 as [|v l Hl IH Hv]; simpl.
  - repeat constructor.
  - destruct (N.leb_spec u v) as [Huv|Huv].
    + constructor; [now constructor|].
      constructor; [exact Huv|].
      eapply Forall_impl; [|exact Hv]. intros w Hw; simpl in Hw. lia.
    + constructor; [exact IH|].
      eapply Permutation_Forall; [symmetry; apply Array_sort_insert_perm|].
      constructor; [lia|exact Hv].
Qed.

Lemma Array_sort_sorted l : StronglySorted N.le (Array_sort l).
Proof.
  induction l; simpl; [constructor|now apply Array_sort_insert_sorted].
Qed.

Lemma sorted_perm_eq (l1 l2 : list N) :
  StronglySorted N.le l1 -> StronglySorted N.le l2 ->
  Permutation l1 l2 -> l1 = l2.
Proof.
  intros H1; revert l2.
  induction H1 as [|x l1 Hl1 IH Hx]; intros l2 H2 HP.
  - apply Permutation_nil in HP. now subst.
  - destruct H2 as [|y l2 Hl2 Hy].
    + symmetry in HP. now apply Permutation_nil in HP.
    + assert (x = y) as ->.
      { assert (In x (y :: l2)) as Hin1
          by (eapply Permutation_in; [exact HP|now left]).
        assert (In y (x :: l1)) as Hin2
          by (eapply Permutation_in; [symmetry; exact HP|now left]).
        rewrite Forall_forall in Hx, Hy.
        destruct Hin1 as [->|Hin1]; [reflexivity|].
        destruct Hin2 as [->|Hin2]; [reflexivity|].
        apply Hy in Hin1. apply Hx in Hin2. lia. }
      f_equal. apply IH; [exact Hl2|].
      now apply Permutation_cons_inv in HP.
Qed.

Lemma Array_sort_eq_iff l1 l2 : Array_sort l1 = Array_sort l2 <-> Permutation l1 l2.
Proof.
  split; intros H.
  - rewrite <- (Array_sort_perm l1), <- (Array_sort_perm l2), H. reflexivity.
  - apply sorted_perm_eq; try apply Array_sort_sorted.
    now rewrite !Array_sort_perm.
Qed.

Lemma ordina_ordinamento l : ordinamento_di (ordina l) l.
Proof.
  unfold ordinamento_di, ordina, join, split.
  split; [apply Array_sort_sorted|apply Array_sort_perm].
Qed.

Lemma ordinamento_comune l1 l2 :
  (exists s, ordinamento_di s l1 /\ ordinamento_di s l2) <-> Permutation l1 l2.
Proof.
  split.
  - intros (s & [_ H1] & [_ H2]). now rewrite <- H1, <- H2.
  - intros HP. exists (ordina l1). split; [apply ordina_ordinamento|].
    destruct (ordina_ordinamento l1) as [Hs H1].
    split; [exact Hs|]. now rewrite H1.
Qed.

(** ** The permutation engine *)

Section PermutazioniFacts.

Variable A : Type.
Implicit Types (array p : list A).

Lemma resto_length array i :
  i < length array -> length (resto array i) = length array - 1.
Proof.
  intros Hi. unfold resto.
  rewrite length_app, length_firstn, length_skipn. lia.
Qed.

Lemma resto_perm array i elemento :
  nth_error array i = Some elemento ->
  Permutation (elemento :: resto array i) array.
Proof.
  intros H. apply nth_error_split in H as (l1 & l2 & -> & <-).
  unfold resto.
  rewrite firstn_app, firstn_all, Nat.sub_diag, app_nil_r.
  replace (length l1 + 1) with (length (l1 ++ [elemento]))
    by (rewrite length_app; reflexivity).
  change (elemento :: l2) with ([elemento] ++ l2).
  rewrite app_assoc, skipn_app, skipn_all, Nat.sub_diag. simpl.
  rewrite <- app_assoc. simpl. apply Permutation_middle.
Qed.

Lemma flat_map_ext_in (B C : Type) (f g : B -> list C) l :
  (forall x, In x l -> f x = g x) -> flat_map f l = flat_map g l.
Proof.
  induction l as [|x l IH]; simpl; intros H; [reflexivity|].
  rewrite H by now left. f_equal. apply IH. intros; apply H; now right.
Qed.

Lemma permutazioni_da_fuel fuel array :
  length array <= fuel ->
  permutazioni_da fuel array = permutazioni array.
Proof.
  unfold permutazioni.
  remember (length array) as n eqn:Hn.
  revert fuel array Hn.
  induction n as [|n IH]; intros fuel array Hn Hfuel.
  - destruct fuel; simpl; rewrite <- Hn; reflexivity.
  - destruct fuel as [|fuel]; [lia|].
    simpl. rewrite <- Hn.
    destruct (S n <=? 1) eqn:E; [reflexivity|].
    apply flat_map_ext_in. intros i Hi. apply in_seq in Hi.
    destruct (nth_error array i) as [elemento|] eqn:Hnth; [|reflexivity].
    f_equal.
    assert (n = length (resto array i)) as Hr
      by (rewrite resto_length; lia).
    rewrite (IH fuel _ Hr) by lia. reflexivity.
Qed.

Lemma permutazioni_eq array :
  permutazioni array = corpo (@permutazioni A) array.
Proof.
  unfold corpo, permutazioni at 1.
  destruct array as [|x array]; [reflexivity|].
  cbn [length permutazioni_da].
  destruct (S (length array) <=? 1) eqn:E; [reflexivity|].
  apply flat_map_ext_in. intros i Hi. apply in_seq in Hi.
  destruct (nth_error (x :: array) i) as [elemento|] eqn:Hnth; [|reflexivity].
  f_equal. apply permutazioni_da_fuel.
  rewrite resto_length; simpl in *; lia.
Qed.

Lemma flat_map_length_const (B C : Type) (f : B -> list C) l k :
  (forall x, In x l -> length (f x) = k) ->
  length (flat_map f l) = length l * k.
Proof.
  induction l as [|x l IH]; simpl; intros H; [reflexivity|].
  rewrite length_app, H by now left.
  rewrite IH by (intros; apply H; now right). lia.
Qed.

Lemma permutazioni_length array :
  length (permutazioni array) = fact (length array).
Proof.
  remember (length array) as n eqn:Hn. revert array Hn.
  induction n as [|n IH]; intros array Hn; rewrite permutazioni_eq; unfold corpo;
    rewrite <- Hn.
  - reflexivity.
  - destruct (S n <=? 1) eqn:E.
    + apply Nat.leb_le in E. assert (n = 0) as -> by lia. reflexivity.
    + rewrite (@flat_map_length_const _ _ _ _ (fact n)).
      * rewrite length_seq. reflexivity.
      * intros i Hi. apply in_seq in Hi.
        destruct (nth_error array i) eqn:Hnth.
        -- rewrite length_map. apply IH. rewrite resto_length; lia.
        -- apply nth_error_None in Hnth. lia.
Qed.

Lemma permutazioni_sound array p :
  In p (permutazioni array) -> Permutation p array.
Proof.
  remember (length array) as n eqn:Hn. revert array Hn p.
  induction n as [|n IH]; intros array Hn p; rewrite permutazioni_eq; unfold corpo;
    rewrite <- Hn.
  - simpl. intros [<-|[]]. reflexivity.
  - destruct (S n <=? 1) eqn:E.
    + intros [<-|[]]. reflexivity.
    + intros H. apply in_flat_map in H as (i & Hi & H). apply in_seq in Hi.
      destruct (nth_error array i) as [elemento|] eqn:Hnth; [|destruct H].
      apply in_map_iff in H as (q & <- & Hq).
      apply IH in Hq; [|rewrite resto_length; lia].
      rewrite Hq. now apply resto_perm.
Qed.

Lemma permutazioni_complete array p :
  Permutation p array -> In p (permutazioni array).
Proof.
  remember (length array) as n eqn:Hn. revert array Hn p.
  induction n as [|n IH]; intros array Hn p HP; rewrite permutazioni_eq; unfold corpo;
    rewrite <- Hn.
  - destruct array; [|discriminate]. apply Permutation_sym, Permutation_nil in HP. subst. now left.
  - destruct (S n <=? 1) eqn:E.
    + apply Nat.leb_le in E.
      destruct array as [|x [|y array]]; simpl in Hn; try lia.
      apply Permutation_sym, Permutation_length_1_inv in HP. subst. now left.
    + destruct p as [|elemento q].
      { apply Permutation_length in HP. simpl in HP. lia. }
      assert (In elemento array) as Hin
        by (eapply Permutation_in; [exact HP|now left]).
      apply In_nth_error in Hin as (i & Hnth).
      assert (i < length array) as Hi
        by (apply nth_error_Some; rewrite Hnth; discriminate).
      apply in_flat_map. exists i. split.
      * apply in_seq. lia.
      * rewrite Hnth. apply in_map. apply IH.
        -- rewrite resto_length; lia.
        -- apply Permutation_cons_inv with (a := elemento).
           rewrite HP. symmetry. now apply resto_perm.
Qed.

End PermutazioniFacts.

(** ** Orderings without repetition, sets *)

Lemma NoDup_flat_map (B C : Type) (f : B -> list C) l :
  NoDup l ->
  (forall x, In x l -> NoDup (f x)) ->
  (forall x y z, In x l -> In y l -> x <> y -> In z (f x) -> ~ In z (f y)) ->
  NoDup (flat_map f l).
Proof.
  induction 1 as [|x l Hx Hl IH]; simpl; intros Hf Hd; [constructor|].
  apply NoDup_app.
  - apply Hf. now left.
  - apply IH.
    + intros; apply Hf; now right.
    + intros y1 y2 z H1 H2; apply Hd; now right.
  - intros z Hz Hz'. apply in_flat_map in Hz' as (y & Hy & Hz').
    refine (Hd x y z _ _ _ Hz Hz');
      [now left|now right|intros ->; contradiction].
Qed.

Lemma NoDup_map_cons (A : Type) (a : A) (l : list (list A)) :
  NoDup l -> NoDup (List.map (cons a) l).
Proof.
  induction 1 as [|x l Hx Hl IH]; simpl; constructor; [|exact IH].
  intros H. apply in_map_iff in H as (y & Heq & Hy).
  injection Heq as ->. contradiction.
Qed.

Lemma map_flat_map_comm (B C D : Type) (g : C -> D) (f : B -> list C) l :
  List.map g (flat_map f l) = flat_map (fun x => List.map g (f x)) l.
Proof.
  induction l as [|x l IH]; simpl; [reflexivity|].
  rewrite map_app, IH. reflexivity.
Qed.

Section PermutazioniNoDup.

Variable A : Type.

Lemma permutazioni_NoDup (array : list A) :
  NoDup array -> NoDup (permutazioni array).
Proof.
  remember (length array) as n eqn:Hn. revert array Hn.
  induction n as [|n IH]; intros array Hn Hnd; rewrite permutazioni_eq;
    unfold corpo; rewrite <- Hn.
  - repeat constructor. intros [].
  - destruct (S n <=? 1) eqn:E.
    + repeat constructor. intros [].
    + apply NoDup_flat_map.
      * apply seq_NoDup.
      * intros i Hi. apply in_seq in Hi.
        destruct (nth_error array i) as [elemento|] eqn:Hnth; [|constructor].
        apply NoDup_map_cons. apply IH.
        -- rewrite resto_length; lia.
        -- pose proof (resto_perm _ _ Hnth) as HP.
           apply Permutation_sym in HP.
           apply (Permutation_NoDup HP) in Hnd.
           now inversion Hnd.
      * intros i j p Hi Hj Hij Hp Hp'.
        apply in_seq in Hi. apply in_seq in Hj.
        destruct (nth_error array i) as [ei|] eqn:Hnthi; [|destruct Hp].
        destruct (nth_error array j) as [ej|] eqn:Hnthj; [|destruct Hp'].
        apply in_map_iff in Hp as (q & <- & _).
        apply in_map_iff in Hp' as (q' & Heq & _).
        injection Heq as -> _.
        apply Hij.
        apply (proj1 (NoDup_nth_error array) Hnd); [lia|congruence].
Qed.

Lemma permutazioni_map (B : Type) (f : A -> B) (array : list A) :
  permutazioni (List.map f array)
  = List.map (List.map f) (permutazioni array).
Proof.
  remember (length array) as n eqn:Hn. revert array Hn.
  induction n as [|n IH]; intros array Hn;
    rewrite (permutazioni_eq (List.map f array)), (permutazioni_eq array);
    unfold corpo; rewrite length_map, <- Hn.
  - reflexivity.
  - destruct (S n <=? 1) eqn:E; [reflexivity|].
    rewrite map_flat_map_comm.
    apply flat_map_ext_in. intros i Hi. apply in_seq in Hi.
    rewrite nth_error_map.
    destruct (nth_error array i) as [elemento|] eqn:Hnth; [|reflexivity].
    simpl. rewrite map_map.
    unfold resto at 1. rewrite firstn_map, skipn_map, <- map_app.
    fold (resto array i). rewrite IH by (rewrite resto_length; lia).
    rewrite map_map. reflexivity.
Qed.

End PermutazioniNoDup.

Lemma map_nth_error_seq (A : Type) (array : list A) :
  List.map (nth_error array) (seq 0 (length array)) = List.map Some array.
Proof.
  induction array as [|x array IH]; [reflexivity|].
  cbn [length seq List.map nth_error]. f_equal.
  rewrite <- seq_shift, map_map. exact IH.
Qed.

(** [Set_of]: membership and distinctness *)

Lemma Set_add_in set x y : In y (Set_add set x) <-> In y set \/ y = x.
Proof.
  unfold Set_add. destruct (existsb (jsstring_eqb x) set) eqn:E.
  - apply existsb_exists in E as (z & Hz & Hxz).
    apply jsstring_eqb_eq in Hxz. subst z.
    split; [now left|]. intros [H| ->]; assumption.
  - rewrite in_app_iff. simpl. split.
    + intros [H|[H|[]]]; [now left|now right].
    + intros [H| ->]; [now left|right; now left].
Qed.

Lemma Set_add_NoDup set x : NoDup set -> NoDup (Set_add set x).
Proof.
  intros H. unfold Set_add.
  destruct (existsb (jsstring_eqb x) set) eqn:E; [exact H|].
  apply NoDup_app; [exact H|repeat constructor; intros []|].
  intros y Hy [<-|[]].
  assert (existsb (jsstring_eqb x) set = true) as E'.
  { apply existsb_exists. exists x. split; [exact Hy|]. now apply jsstring_eqb_eq. }
  congruence.
Qed.

Lemma fold_Set_add_in array set y :
  In y (fold_left Set_add array set) <-> In y set \/ In y array.
Proof.
  revert set; induction array as [|x array IH]; intros set; simpl.
  - tauto.
  - rewrite IH, Set_add_in. intuition (subst; auto).
Qed.

Lemma fold_Set_add_NoDup array set :
  NoDup set -> NoDup (fold_left Set_add array set).
Proof.
  revert set; induction array as [|x array IH]; intros set H; simpl;
    [exact H|]. apply IH. now apply Set_add_NoDup.
Qed.

Lemma Set_of_in array y : In y (Set_of array) <-> In y array.
Proof. unfold Set_of. rewrite fold_Set_add_in. simpl. tauto. Qed.

Lemma Set_of_NoDup array : NoDup (Set_of array).
Proof. apply fold_Set_add_NoDup. constructor. Qed.

Lemma NoDup_same_length (A : Type) (l1 l2 : list A) :
  NoDup l1 -> NoDup l2 -> (forall x, In x l1 <-> In x l2) ->
  length l1 = length l2.
Proof.
  intros H1 H2 H. apply Permutation_length.
  now apply NoDup_Permutation.
Qed.

(** ** Counting the distinct orderings *)

Lemma togli_perm a l : In a l -> Permutation (a :: togli a l) l.
Proof.
  induction l as [|x l IH]; simpl; [intros []|].
  destruct (N.eq_dec x a) as [->|Hxa]; [reflexivity|].
  intros [Hx|Hin]; [congruence|].
  rewrite perm_swap. constructor. now apply IH.
Qed.

Lemma togli_length a l : In a l -> S (length (togli a l)) = length l.
Proof.
  intros H. apply togli_perm in H. apply Permutation_length in H. exact H.
Qed.

Lemma togli_incl a l : incl (togli a l) l.
Proof.
  induction l as [|x l IH]; simpl; [easy|].
  destruct (N.eq_dec x a); [apply incl_tl, incl_refl|].
  apply incl_cons; [now left|]. now apply incl_tl.
Qed.

Lemma occorrenze_togli_same a l :
  In a l -> occorrenze a l = S (occorrenze a (togli a l)).
Proof.
  unfold occorrenze. induction l as [|x l IH]; simpl; [intros []|].
  destruct (N.eq_dec x a) as [->|Hxa]; [reflexivity|].
  intros [Hx|Hin]; [congruence|].
  simpl. destruct (N.eq_dec x a); [congruence|]. now apply IH.
Qed.

Lemma occorrenze_togli_other a b l :
  a <> b -> occorrenze b (togli a l) = occorrenze b l.
Proof.
  unfold occorrenze. intros Hab. induction l as [|x l IH]; simpl; [reflexivity|].
  destruct (N.eq_dec x a) as [->|Hxa].
  - destruct (N.eq_dec a b); [congruence|reflexivity].
  - simpl. destruct (N.eq_dec x b); now rewrite IH.
Qed.

Lemma prodotto_togli_notin a S l :
  ~ In a S -> prodotto_fattoriali S (togli a l) = prodotto_fattoriali S l.
Proof.
  induction S as [|b S IH]; simpl; intros H; [reflexivity|].
  rewrite occorrenze_togli_other by (intros ->; apply H; now left).
  rewrite IH by (intros H'; apply H; now right). reflexivity.
Qed.

Lemma prodotto_togli a S l :
  NoDup S -> In a S -> In a l ->
  prodotto_fattoriali S l
  = occorrenze a l * prodotto_fattoriali S (togli a l).
Proof.
  induction 1 as [|b S Hb HS IH]; simpl; [intros []|].
  intros [->|Hin] Hl.
  - rewrite prodotto_togli_notin by exact Hb.
    rewrite (@occorrenze_togli_same a l Hl). simpl. lia.
  - rewrite IH by assumption.
    rewrite (@occorrenze_togli_other a b) by (intros ->; contradiction).
    lia.
Qed.

Lemma somma_indicatrice a S :
  NoDup S -> In a S ->
  list_sum (List.map (fun b => if N.eq_dec a b then 1 else 0) S) = 1.
Proof.
  induction 1 as [|b S Hb HS IH]; simpl; [intros []|].
  intros [->|Hin].
  - destruct (N.eq_dec a a); [|congruence].
    replace (list_sum _) with 0; [reflexivity|].
    symmetry. clear IH HS. induction S as [|c S IH]; [reflexivity|].
    simpl. destruct (N.eq_dec a c) as [->|]; [exfalso; apply Hb; now left|].
    apply IH. intros H; apply Hb; now right.
  - destruct (N.eq_dec a b) as [->|]; [contradiction|]. now apply IH.
Qed.

Lemma somma_occorrenze S l :
  NoDup S -> incl l S ->
  list_sum (List.map (fun a => occorrenze a l) S) = length l.
Proof.
  intros HS. induction l as [|x l IH]; intros Hl.
  - unfold occorrenze. simpl. clear. induction S; simpl; auto.
  - assert (incl l S) as Hl' by (intros y Hy; apply Hl; now right).
    assert (In x S) as Hx by (apply Hl; now left).
    transitivity
      (list_sum (List.map (fun b => if N.eq_dec x b then 1 else 0) S)
       + list_sum (List.map (fun a => occorrenze a l) S)).
    + unfold occorrenze. simpl. clear.
      induction S as [|b S IH]; simpl; [reflexivity|].
      rewrite IH. destruct (N.eq_dec x b); simpl; lia.
    + rewrite (@somma_indicatrice x S HS Hx), (IH Hl'). reflexivity.
Qed.

Lemma flat_map_length_sum (B C : Type) (f : B -> list C) l :
  length (flat_map f l) = list_sum (List.map (fun x => length (f x)) l).
Proof.
  induction l as [|x l IH]; simpl; [reflexivity|].
  now rewrite length_app, IH.
Qed.

Lemma list_sum_map_mul (B : Type) (f : B -> nat) l k :
  list_sum (List.map f l) * k = list_sum (List.map (fun x => f x * k) l).
Proof.
  induction l as [|x l IH]; simpl; [reflexivity|]. rewrite <- IH. lia.
Qed.

Lemma list_sum_map_ext_in (B : Type) (f g : B -> nat) l :
  (forall x, In x l -> f x = g x) ->
  list_sum (List.map f l) = list_sum (List.map g l).
Proof.
  intros H. f_equal. apply map_ext_in. exact H.
Qed.

Lemma Set_of_permutazioni_in l p :
  In p (Set_of (permutazioni l)) <-> Permutation p l.
Proof.
  rewrite Set_of_in. split.
  - apply permutazioni_sound.
  - apply permutazioni_complete.
Qed.

(** The distinct orderings of a non-empty list, by their first element. *)
Lemma distinti_step l :
  l <> [] ->
  distinti l
  = list_sum (List.map (fun a => distinti (togli a l)) (nodup N.eq_dec l)).
Proof.
  intros Hl.
  transitivity
    (length (flat_map
       (fun a => List.map (cons a) (Set_of (permutazioni (togli a l))))
       (nodup N.eq_dec l))).
  - unfold distinti. apply NoDup_same_length.
    + apply Set_of_NoDup.
    + apply NoDup_flat_map.
      * apply NoDup_nodup.
      * intros a _. apply NoDup_map_cons, Set_of_NoDup.
      * intros a b p _ _ Hab Hp Hp'.
        apply in_map_iff in Hp as (q & <- & _).
        apply in_map_iff in Hp' as (q' & Heq & _).
        injection Heq as -> _. now apply Hab.
    + intros p. rewrite Set_of_permutazioni_in, in_flat_map. split.
      * intros HP. destruct p as [|a q].
        { apply Permutation_nil in HP. congruence. }
        assert (In a l) as Ha by (eapply Permutation_in; [exact HP|now left]).
        exists a. split; [now apply nodup_In|].
        apply in_map. apply Set_of_permutazioni_in.
        apply Permutation_cons_inv with (a := a).
        rewrite HP. symmetry. now apply togli_perm.
      * intros (a & Ha & Hp). apply nodup_In in Ha.
        apply in_map_iff in Hp as (q & <- & Hq).
        apply Set_of_permutazioni_in in Hq.
        rewrite Hq. now apply togli_perm.
  - rewrite flat_map_length_sum. apply list_sum_map_ext_in.
    intros a _. now rewrite length_map.
Qed.

Theorem distinti_prodotto l S :
  NoDup S -> incl l S ->
  distinti l * prodotto_fattoriali S l = fact (length l).
Proof.
  intros HS. remember (length l) as n eqn:Hn. revert l Hn.
  induction n as [|n IH]; intros l Hn Hl.
  - destruct l; [|discriminate]. unfold distinti. simpl.
    replace (prodotto_fattoriali S []) with 1; [reflexivity|].
    clear. induction S; simpl; [reflexivity|]. rewrite <- IHS. reflexivity.
  - assert (l <> []) as Hne by (intros ->; discriminate).
    rewrite (@distinti_step l Hne), list_sum_map_mul.
    rewrite (@list_sum_map_ext_in _ _ (fun a => occorrenze a l * fact n)).
    + rewrite <- list_sum_map_mul.
      rewrite (@somma_occorrenze (nodup N.eq_dec l) l).
      * rewrite <- Hn. simpl. lia.
      * apply NoDup_nodup.
      * intros a Ha. now apply nodup_In.
    + intros a Ha. apply nodup_In in Ha.
      rewrite (@prodotto_togli a S l HS (Hl a Ha) Ha).
      rewrite <- (IH (togli a l)).
      * lia.
      * pose proof (@togli_length a l Ha). lia.
      * intros b Hb. apply Hl. now apply togli_incl in Hb.
Qed.

(** ** Objects and the counting loop *)

(** Enumeration is a reordering of the own properties. *)
Section ObjectFacts.
Variable V : Type.
Implicit Types (o : object V).

Lemma insertByIndex_perm i (e : jsstring * V) sorted :
  Permutation (insertByIndex i e sorted) ((i, e) :: sorted).
Proof.
  induction sorted as [|[i' e'] sorted IH]; simpl; [reflexivity|].
  destruct (i <=? i')%N; [reflexivity|].
  rewrite IH. apply perm_swap.
Qed.

Lemma indexProperties_perm o :
  Permutation (List.map snd (indexProperties o))
    (filter (fun e => isArrayIndex (fst e)) o).
Proof.
  induction o as [|e o IH]; simpl; [constructor|].
  unfold isArrayIndex at 1.
  destruct (arrayIndex (fst e)) as [i|]; [|exact IH].
  rewrite insertByIndex_perm. simpl. now constructor.
Qed.

Lemma filter_partition_perm (B : Type) (f : B -> bool) (l : list B) :
  Permutation (filter f l ++ filter (fun x => negb (f x)) l) l.
Proof.
  induction l as [|x l IH]; simpl; [constructor|].
  destruct (f x); simpl.
  - now constructor.
  - rewrite <- Permutation_middle. now constructor.
Qed.

Lemma entries_perm o : Permutation (entries o) o.
Proof.
  unfold entries. rewrite indexProperties_perm.
  apply (filter_partition_perm (fun e => isArrayIndex (fst e))).
Qed.

Lemma values_perm o : Permutation (values o) (List.map snd o).
Proof. unfold values. apply Permutation_map, entries_perm. Qed.

Lemma keys_perm o : Permutation (keys o) (List.map fst o).
Proof. unfold keys. apply Permutation_map, entries_perm. Qed.

End ObjectFacts.

Lemma unit_not_in_prototype (u : N) :
  existsb (jsstring_eqb [u]) Object_prototype = false.
Proof.
  unfold Object_prototype. simpl. rewrite !andb_false_r. reflexivity.
Qed.

Lemma get_unit_not_inherited (V : Type) (o : object V) (u : N) :
  get o [u] <> Inherited.
Proof.
  unfold get. destruct (getOwn o [u]); [discriminate|].
  rewrite unit_not_in_prototype. discriminate.
Qed.

Lemma existsb_N_eqb a l : existsb (N.eqb a) l = true <-> In a l.
Proof.
  rewrite existsb_exists. split.
  - intros (x & Hx & E). apply N.eqb_eq in E. now subst.
  - intros H. exists a. split; [exact H|apply N.eqb_refl].
Qed.

Lemma primi_add_in visti a b : In b (primi_add visti a) <-> In b visti \/ b = a.
Proof.
  unfold primi_add. destruct (existsb (N.eqb a) visti) eqn:E.
  - apply existsb_N_eqb in E. split; [now left|]. intros [H| ->]; assumption.
  - rewrite in_app_iff. simpl. intuition.
Qed.

Lemma primi_add_NoDup visti a : NoDup visti -> NoDup (primi_add visti a).
Proof.
  intros H. unfold primi_add. destruct (existsb (N.eqb a) visti) eqn:E; [exact H|].
  apply NoDup_app; [exact H|repeat constructor; intros []|].
  intros x Hx [<-|[]]. apply existsb_N_eqb in Hx. congruence.
Qed.

Lemma primi_snoc l a : primi (l ++ [a]) = primi_add (primi l) a.
Proof. unfold primi. now rewrite fold_left_app. Qed.

Lemma primi_in l a : In a (primi l) <-> In a l.
Proof.
  induction l as [|x l IH] using rev_ind; [reflexivity|].
  rewrite primi_snoc, primi_add_in, IH, in_app_iff. simpl. intuition.
Qed.

Lemma primi_NoDup l : NoDup (primi l).
Proof.
  induction l as [|x l IH] using rev_ind; [constructor|].
  rewrite primi_snoc. now apply primi_add_NoDup.
Qed.

Lemma getOwn_tabella f S x :
  getOwn (tabella f S) [x] = if existsb (N.eqb x) S then Some (f x) else None.
Proof.
  induction S as [|a S IH]; simpl; [reflexivity|].
  rewrite andb_true_r, (N.eqb_sym x a).
  destruct (N.eqb_spec a x) as [->|Hax]; simpl; [reflexivity|exact IH].
Qed.

Lemma set_tabella_notin f S x v :
  ~ In x S -> set (tabella f S) [x] v = tabella f S ++ [([x], v)].
Proof.
  induction S as [|a S IH]; simpl; [reflexivity|].
  rewrite andb_true_r. intros H.
  destruct (N.eqb_spec a x) as [->|Hax]; [exfalso; apply H; now left|].
  rewrite IH by (intros H'; apply H; now right). reflexivity.
Qed.

Lemma set_tabella_in f g S x v :
  NoDup S -> In x S -> g x = v -> (forall a, a <> x -> g a = f a) ->
  set (tabella f S) [x] v = tabella g S.
Proof.
  intros HS Hin Hx Hg. induction HS as [|a S Ha HS IH]; [destruct Hin|].
  simpl. rewrite andb_true_r.
  destruct (N.eqb_spec a x) as [->|Hax].
  - rewrite Hx. f_equal. unfold tabella. apply map_ext_in.
    intros b Hb. rewrite Hg; [reflexivity|]. intros ->. contradiction.
  - rewrite Hg by exact Hax. f_equal. apply IH.
    destruct Hin as [->|Hin]; [contradiction|exact Hin].
Qed.

Lemma occorrenze_snoc a l x :
  occorrenze a (l ++ [x]) = occorrenze a l + (if N.eq_dec x a then 1 else 0).
Proof.
  unfold occorrenze. rewrite count_occ_app. simpl.
  destruct (N.eq_dec x a); reflexivity.
Qed.

Lemma occorrenze_pos a l : In a l <-> 1 <= occorrenze a l.
Proof. unfold occorrenze. rewrite (count_occ_In N.eq_dec). lia. Qed.

Lemma conteggio_tabella l :
  fold_left conta_lettera l []
  = tabella (fun a => occorrenze a l) (primi l).
Proof.
  induction l as [|x l IH] using rev_ind; [reflexivity|].
  rewrite fold_left_app, IH. simpl. unfold conta_lettera, get.
  rewrite getOwn_tabella, primi_snoc. unfold primi_add.
  destruct (existsb (N.eqb x) (primi l)) eqn:E.
  - apply existsb_N_eqb in E.
    apply set_tabella_in.
    + apply primi_NoDup.
    + exact E.
    + rewrite occorrenze_snoc. destruct (N.eq_dec x x); [reflexivity|congruence].
    + intros a Ha. rewrite occorrenze_snoc.
      destruct (N.eq_dec x a); [congruence|lia].
  - rewrite unit_not_in_prototype.
    assert (~ In x (primi l)) as Hx
      by (intros H; apply existsb_N_eqb in H; congruence).
    rewrite set_tabella_notin by exact Hx.
    unfold tabella. rewrite map_app. simpl. f_equal.
    + apply map_ext_in. intros a Ha. rewrite occorrenze_snoc.
      destruct (N.eq_dec x a) as [->|]; [contradiction|]. f_equal. lia.
    + rewrite occorrenze_snoc.
      destruct (N.eq_dec x x); [|congruence].
      rewrite primi_in in Hx.
      assert (occorrenze x l = 0) as ->; [|reflexivity].
      destruct (occorrenze x l) eqn:E'; [reflexivity|].
      exfalso. apply Hx. apply occorrenze_pos. lia.
Qed.

Lemma conteggio_values l :
  Permutation (values (fold_left conta_lettera l []))
    (List.map (fun a => occorrenze a l) (primi l)).
Proof.
  rewrite values_perm, conteggio_tabella. unfold tabella.
  rewrite map_map. reflexivity.
Qed.

(** ** Exactness in binary64 *)

Lemma factZ_fact n : factZ n = Z.of_nat (fact n).
Proof.
  induction n as [|n IH]; [reflexivity|].
  cbn [factZ fact]. rewrite IH. lia.
Qed.

Lemma stato_eqb_eq a b : stato_eqb a b = true <-> a = b.
Proof.
  unfold stato_eqb. destruct a as [a1 a2], b as [b1 b2]; simpl.
  rewrite andb_true_iff, Nat.eqb_eq, Z.eqb_eq. split.
  - intros [-> ->]. reflexivity.
  - intros H. now injection H.
Qed.

Lemma distinti_stati_in l x : In x (distinti_stati l) <-> In x l.
Proof.
  induction l as [|y l IH]; simpl; [reflexivity|].
  destruct (existsb (stato_eqb y) l) eqn:E; simpl; rewrite IH; [|reflexivity].
  split; [now right|]. intros [<-|H]; [|exact H].
  apply existsb_exists in E as (z & Hz & E).
  apply stato_eqb_eq in E. now subst.
Qed.

Lemma livelli_passo n cur j st k :
  In st (nth j (livelli n cur) []) -> j < n ->
  1 <= k -> fst st + k <= limite ->
  In (avanza st k) (nth (S j) (livelli n cur) []).
Proof.
  revert cur j. induction n as [|n IH]; intros cur j Hst Hj Hk Hlim; [lia|].
  destruct j as [|j].
  - cbn [livelli nth] in Hst. cbn [livelli nth].
    assert (In (avanza st k) (distinti_stati (flat_map passi cur))) as H.
    { apply distinti_stati_in, in_flat_map. exists st. split; [exact Hst|].
      apply in_map, in_seq. lia. }
    destruct n; exact H.
  - cbn [livelli nth] in Hst. cbn [livelli nth].
    apply IH; [exact Hst|lia|exact Hk|exact Hlim].
Qed.

Lemma nth_in_concat (B : Type) (L : list (list B)) j x :
  In x (nth j L []) -> In x (concat L).
Proof.
  intros H. destruct (Nat.lt_ge_cases j (length L)) as [Hj|Hj].
  - apply in_concat. exists (nth j L []). split; [now apply nth_In|exact H].
  - rewrite nth_overflow in H by exact Hj. destruct H.
Qed.

Lemma map_eq_in (B C : Type) (f g : B -> C) l x :
  List.map f l = List.map g l -> In x l -> f x = g x.
Proof.
  induction l as [|y l IH]; simpl; intros E; [intros []|].
  injection E as E1 E2. intros [<-|H]; [exact E1|now apply IH].
Qed.

(** Every product and quotient the count can form on at most [limite]
    letters is exact in binary64. *)
Lemma prodotti_esatti :
  List.map (fun p : stato * nat =>
              (Number_of_Z (snd (fst p)) * fattoriale (snd p))%float) coppie
  = List.map (fun p : stato * nat =>
                Number_of_Z (snd (fst p) * factZ (snd p))) coppie.
Proof. vm_compute. reflexivity. Qed.

Lemma quozienti_esatti :
  List.map (fun st : stato =>
              Number_to_Z (fattoriale (fst st) / Number_of_Z (snd st))%float)
    stati
  = List.map (fun st : stato => Some (factZ (fst st) / snd st)%Z) stati.
Proof. vm_compute. reflexivity. Qed.

Lemma denominatore_esatto_da vs j st :
  Forall (fun c => 1 <= c) vs ->
  In st (nth j livelli_tutti []) ->
  j + length vs <= limite ->
  fst st + list_sum vs <= limite ->
  denominatore_da vs (Number_of_Z (snd st))
  = Number_of_Z (prodottoZ vs (snd st))
  /\ In (fst st + list_sum vs, prodottoZ vs (snd st)) stati.
Proof.
  intros Hvs. revert j st.
  induction Hvs as [|c vs Hc Hvs IH]; intros j st Hst Hj Hsum.
  - cbn [list_sum fold_right denominatore_da prodottoZ fold_left].
    rewrite Nat.add_0_r. split; [reflexivity|].
    rewrite <- surjective_pairing.
    exact (@nth_in_concat _ livelli_tutti j st Hst).
  - cbn [length] in Hj.
    change (list_sum (c :: vs)) with (c + list_sum vs) in Hsum |- *.
    assert (In st stati) as Hstati
      by exact (@nth_in_concat _ livelli_tutti j st Hst).
    assert (In (st, c) coppie) as Hcoppia.
    { apply in_flat_map. exists st. split; [exact Hstati|].
      apply in_map, in_seq. lia. }
    pose proof (@map_eq_in _ _ _ _ coppie (st, c) prodotti_esatti Hcoppia) as E.
    cbn [fst snd] in E.
    assert (In (avanza st c) (nth (S j) livelli_tutti [])) as Hst'
      by (apply livelli_passo; [exact Hst|lia|exact Hc|lia]).
    destruct (IH (S j) (avanza st c) Hst') as [IH1 IH2].
    + lia.
    + unfold avanza. cbn [fst]. lia.
    + unfold avanza in IH1, IH2. cbn [fst snd] in IH1, IH2.
      unfold denominatore_da, prodottoZ in IH1, IH2 |- *.
      cbn [fold_left]. rewrite E. split; [exact IH1|].
      rewrite Nat.add_assoc. exact IH2.
Qed.

Lemma length_le_sum vs :
  Forall (fun c => 1 <= c) vs -> length vs <= list_sum vs.
Proof. induction 1; simpl; lia. Qed.

Lemma prodottoZ_mul vs P : prodottoZ vs P = (P * prodottoZ vs 1)%Z.
Proof.
  unfold prodottoZ. revert P.
  induction vs as [|c vs IH]; intros P; cbn [fold_left]; [lia|].
  rewrite (IH (P * factZ c)%Z), (IH (1 * factZ c)%Z). lia.
Qed.

Lemma prodottoZ_cons c vs :
  prodottoZ (c :: vs) 1 = (factZ c * prodottoZ vs 1)%Z.
Proof.
  unfold prodottoZ at 1. cbn [fold_left]. fold (prodottoZ vs (1 * factZ c)).
  rewrite prodottoZ_mul. lia.
Qed.

Lemma prodottoZ_perm vs vs' :
  Permutation vs vs' -> prodottoZ vs 1 = prodottoZ vs' 1.
Proof.
  induction 1 as [|c vs vs' H IH|c c' vs|vs1 vs2 vs3 H1 IH1 H2 IH2].
  - reflexivity.
  - rewrite !prodottoZ_cons, IH. reflexivity.
  - rewrite !prodottoZ_cons. lia.
  - now rewrite IH1.
Qed.

Lemma prodottoZ_prodotto S l :
  prodottoZ (List.map (fun a => occorrenze a l) S) 1
  = Z.of_nat (prodotto_fattoriali S l).
Proof.
  induction S as [|a S IH]; [reflexivity|].
  cbn [List.map]. rewrite prodottoZ_cons, IH, factZ_fact.
  cbn [prodotto_fattoriali fold_right]. fold (prodotto_fattoriali S l). lia.
Qed.

Theorem conta_esatto vs :
  Forall (fun c => 1 <= c) vs -> list_sum vs <= limite ->
  Number_to_Z
    (fattoriale (list_sum vs) / denominatore_da vs 1%float)%float
  = Some (factZ (list_sum vs) / prodottoZ vs 1)%Z.
Proof.
  intros Hvs Hsum.
  assert (In (0, 1%Z) (nth 0 livelli_tutti [])) as H0 by (now left).
  destruct (@denominatore_esatto_da vs 0 (0, 1%Z) Hvs H0) as [E Hin].
  - pose proof (length_le_sum Hvs). lia.
  - exact Hsum.
  - cbn [fst snd] in E, Hin. rewrite Nat.add_0_l in Hin.
    change (Number_of_Z 1) with 1%float in E. rewrite E.
    exact (@map_eq_in _ _ _ _ stati _ quozienti_esatti Hin).
Qed.

(** ** The count *)

Lemma prodotto_fattoriali_pos S l : 0 < prodotto_fattoriali S l.
Proof.
  induction S as [|a S IH]; simpl; [lia|].
  pose proof (lt_O_fact (occorrenze a l)). nia.
Qed.

Lemma distinti_multinomiale l : distinti l = multinomiale l.
Proof.
  unfold multinomiale.
  rewrite <- (@distinti_prodotto l (nodup N.eq_dec l)).
  - rewrite Nat.div_mul; [reflexivity|].
    pose proof (prodotto_fattoriali_pos (nodup N.eq_dec l) l). lia.
  - apply NoDup_nodup.
  - intros a Ha. now apply nodup_In.
Qed.

Lemma prodotto_fattoriali_cons a lettere l :
  prodotto_fattoriali (a :: lettere) l
  = fact (occorrenze a l) * prodotto_fattoriali lettere l.
Proof. reflexivity. Qed.

Lemma prodotto_fattoriali_nil l : prodotto_fattoriali [] l = 1.
Proof. reflexivity. Qed.

Lemma fact_uno : fact 1 = 1.
Proof. reflexivity. Qed.

Lemma fact_due : fact 2 = 2.
Proof. reflexivity. Qed.

(** The number of distinct orderings of a word of m+2 letters when the
    product of the factorials of the occurrences is k * m!. *)
Lemma distinti_quoziente (l lettere : list N) (m k : nat) :
  NoDup lettere -> incl l lettere -> length l = m + 2 ->
  prodotto_fattoriali lettere l = k * fact m ->
  distinti l * k = (m + 2) * (m + 1).
Proof.
  intros HS Hl Hn Hp. pose proof (distinti_prodotto HS Hl) as H.
  rewrite Hn, Hp in H.
  replace (m + 2) with (S (S m)) in H |- * by lia.
  replace (m + 1) with (S m) by lia.
  change (fact (S (S m))) with (S (S m) * (S m * fact m)) in H.
  pose proof (lt_O_fact m) as Hf. revert H Hf.
  generalize (fact m). intros f H Hf. nia.
Qed.

Lemma map_join_id (ps : list (list N)) : List.map join ps = ps.
Proof. unfold join. apply map_id. Qed.

Section ContaFacts.

Variable toLowercase : list N -> N -> list N -> list N.
Lemma generaAnagrammi_unici_length parola :
  length (generaAnagrammi toLowercase parola true) = distinti (normalizza toLowercase parola).
Proof.
  unfold generaAnagrammi, split. rewrite map_join_id. reflexivity.
Qed.

Lemma generaAnagrammi_tutti_length parola :
  length (generaAnagrammi toLowercase parola false) = fact (length (normalizza toLowercase parola)).
Proof.
  unfold generaAnagrammi, split.
  rewrite map_join_id. apply permutazioni_length.
Qed.

Lemma conteggi_positivi l :
  Forall (fun c => 1 <= c) (values (fold_left conta_lettera l [])).
Proof.
  eapply Permutation_Forall; [symmetry; apply conteggio_values|].
  apply Forall_forall. intros c Hc.
  apply in_map_iff in Hc as (a & <- & Ha).
  apply occorrenze_pos. now apply primi_in.
Qed.

Lemma list_sum_perm (l1 l2 : list nat) :
  Permutation l1 l2 -> list_sum l1 = list_sum l2.
Proof. induction 1; simpl; lia. Qed.

Lemma conteggi_somma l :
  list_sum (values (fold_left conta_lettera l [])) = length l.
Proof.
  rewrite (list_sum_perm (conteggio_values l)).
  apply somma_occorrenze; [apply primi_NoDup|].
  intros a Ha. now apply primi_in.
Qed.

Lemma conteggi_prodotto l :
  prodottoZ (values (fold_left conta_lettera l [])) 1
  = Z.of_nat (prodotto_fattoriali (primi l) l).
Proof.
  rewrite (prodottoZ_perm (conteggio_values l)). apply prodottoZ_prodotto.
Qed.

(** The value of [contaAnagrammi] on a word of at most 22 letters. *)
Lemma contaAnagrammi_esatto parola :
  length (normalizza toLowercase parola) <= limite ->
  Number_to_Z (contaAnagrammi toLowercase parola)
  = Some (Z.of_nat (distinti (normalizza toLowercase parola))).
Proof.
  intros Hn. unfold contaAnagrammi, split.
  set (l := normalizza toLowercase parola) in *.
  set (vs := values (fold_left conta_lettera l [])).
  fold (denominatore_da vs 1%float).
  rewrite <- (conteggi_somma l). fold vs.
  rewrite conta_esatto.
  - f_equal. unfold vs. rewrite conteggi_prodotto, conteggi_somma, factZ_fact.
    rewrite <- (@distinti_prodotto l (primi l)).
    + rewrite Nat2Z.inj_mul. apply Z.div_mul.
      pose proof (prodotto_fattoriali_pos (primi l) l). lia.
    + apply primi_NoDup.
    + intros a Ha. now apply primi_in.
  - apply conteggi_positivi.
  - unfold vs. rewrite conteggi_somma. exact Hn.
Qed.

End ContaFacts.

(** ** The grouping loop *)

Lemma jsstring_eqb_refl a : jsstring_eqb a a = true.
Proof. now apply jsstring_eqb_eq. Qed.

Lemma jsstring_eqb_sym a b : jsstring_eqb a b = jsstring_eqb b a.
Proof.
  destruct (jsstring_eqb a b) eqn:E1, (jsstring_eqb b a) eqn:E2; try reflexivity.
  - apply jsstring_eqb_eq in E1. subst. rewrite jsstring_eqb_refl in E2. discriminate.
  - apply jsstring_eqb_eq in E2. subst. rewrite jsstring_eqb_refl in E1. discriminate.
Qed.

Lemma jsstring_eqb_neq a b : jsstring_eqb a b = false <-> a <> b.
Proof.
  split.
  - intros E ->. rewrite jsstring_eqb_refl in E. discriminate.
  - intros H. destruct (jsstring_eqb a b) eqn:E; [|reflexivity].
    apply jsstring_eqb_eq in E. contradiction.
Qed.

Lemma existsb_jsstring_eqb x K : existsb (jsstring_eqb x) K = true <-> In x K.
Proof.
  rewrite existsb_exists. split.
  - intros (y & Hy & E). apply jsstring_eqb_eq in E. now subst.
  - intros H. exists x. split; [exact H|apply jsstring_eqb_refl].
Qed.

Lemma Set_of_snoc l x : Set_of (l ++ [x]) = Set_add (Set_of l) x.
Proof. unfold Set_of. now rewrite fold_left_app. Qed.

Lemma ordinato_sorted s : StronglySorted N.le s -> ordinato s = true.
Proof.
  induction 1 as [|u s Hs IH Hu]; [reflexivity|].
  destruct s as [|v s]; [reflexivity|].
  change (ordinato (u :: v :: s)) with ((u <=? v)%N && ordinato (v :: s)).
  rewrite IH, andb_true_r.
  apply N.leb_le. now inversion Hu.
Qed.

Lemma prototype_non_ordinato :
  forallb (fun p => negb (ordinato p)) Object_prototype = true.
Proof. reflexivity. Qed.

Lemma ordinato_not_in_prototype s :
  ordinato s = true -> existsb (jsstring_eqb s) Object_prototype = false.
Proof.
  intros Hs. destruct (existsb _ _) eqn:E; [|reflexivity].
  apply existsb_jsstring_eqb in E.
  pose proof prototype_non_ordinato as H.
  rewrite forallb_forall in H. apply H in E. rewrite Hs in E. discriminate.
Qed.

Section ObjectTable.

Variable V : Type.

Lemma getOwn_tabellaK (f : jsstring -> V) K x :
  getOwn (tabellaK f K) x
  = if existsb (jsstring_eqb x) K then Some (f x) else None.
Proof.
  induction K as [|k K IH]; simpl; [reflexivity|].
  rewrite (jsstring_eqb_sym x k).
  destruct (jsstring_eqb k x) eqn:E; simpl; [|exact IH].
  apply jsstring_eqb_eq in E. now subst.
Qed.

Lemma set_notin (o : object V) k v :
  ~ In k (List.map fst o) -> set o k v = o ++ [(k, v)].
Proof.
  induction o as [|[k' v'] o IH]; simpl; [reflexivity|]. intros H.
  destruct (jsstring_eqb k' k) eqn:E.
  - apply jsstring_eqb_eq in E. exfalso. apply H. now left.
  - rewrite IH by (intros H'; apply H; now right). reflexivity.
Qed.

Lemma tabellaK_keys (f : jsstring -> V) K :
  List.map fst (tabellaK f K) = K.
Proof. unfold tabellaK. rewrite map_map. simpl. apply map_id. Qed.

Lemma set_tabellaK_in (f g : jsstring -> V) K x v :
  NoDup K -> In x K -> g x = v -> (forall k, k <> x -> g k = f k) ->
  set (tabellaK f K) x v = tabellaK g K.
Proof.
  intros HK Hin Hx Hg. induction HK as [|k K Hk HK IH]; [destruct Hin|].
  simpl. destruct (jsstring_eqb k x) eqn:E.
  - apply jsstring_eqb_eq in E. subst k. rewrite Hx. f_equal.
    unfold tabellaK. apply map_ext_in.
    intros b Hb. rewrite Hg; [reflexivity|]. intros ->. contradiction.
  - apply jsstring_eqb_neq in E. rewrite Hg by exact E. f_equal. apply IH.
    destruct Hin as [->|Hin]; [contradiction|exact Hin].
Qed.

Lemma getOwn_In (o : object V) k v :
  NoDup (List.map fst o) -> (getOwn o k = Some v <-> In (k, v) o).
Proof.
  induction o as [|[k' v'] o IH]; simpl; intros Hnd.
  - split; [discriminate|intros []].
  - inversion Hnd as [|? ? Hk' Hnd']; subst.
    destruct (jsstring_eqb k' k) eqn:E.
    + apply jsstring_eqb_eq in E. subst k'. split.
      * intros H. injection H as ->. now left.
      * intros [H|H]; [now injection H as ->|].
        exfalso. apply Hk'. apply in_map_iff. now exists (k, v).
    + apply jsstring_eqb_neq in E. rewrite (IH Hnd'). split.
      * now right.
      * intros [H|H]; [injection H as -> _; congruence|exact H].
Qed.

End ObjectTable.

Section Raggruppa.

Variable toLowercase : list N -> N -> list N -> list N.

Lemma chiave_not_in_prototype parola :
  existsb (jsstring_eqb (chiaveAnagramma toLowercase parola)) Object_prototype
  = false.
Proof.
  apply ordinato_not_in_prototype, ordinato_sorted.
  unfold chiaveAnagramma, join. apply Array_sort_sorted.
Qed.

Lemma gruppo_di_snoc parole x k :
  gruppo_di toLowercase (parole ++ [x]) k
  = gruppo_di toLowercase parole k
    ++ (if jsstring_eqb (chiaveAnagramma toLowercase x) k then [x] else []).
Proof. unfold gruppo_di. rewrite filter_app. reflexivity. Qed.

Lemma chiavi_snoc parole x :
  chiavi toLowercase (parole ++ [x])
  = Set_add (chiavi toLowercase parole) (chiaveAnagramma toLowercase x).
Proof. unfold chiavi. rewrite map_app. apply Set_of_snoc. Qed.

Lemma get_tabellaK_chiave (f : jsstring -> list jsstring) K x :
  get (tabellaK f K) (chiaveAnagramma toLowercase x)
  = if existsb (jsstring_eqb (chiaveAnagramma toLowercase x)) K
    then Own (f (chiaveAnagramma toLowercase x))
    else Undefined.
Proof.
  unfold get. rewrite getOwn_tabellaK.
  destruct (existsb _ K); [reflexivity|].
  now rewrite chiave_not_in_prototype.
Qed.

Lemma set_ultimo (V : Type) (o : object V) k v v' :
  ~ In k (List.map fst o) ->
  set (o ++ [(k, v)]) k v' = o ++ [(k, v')].
Proof.
  induction o as [|[k' w] o IH]; simpl; intros H.
  - now rewrite jsstring_eqb_refl.
  - destruct (jsstring_eqb k' k) eqn:E.
    + apply jsstring_eqb_eq in E. exfalso. apply H. now left.
    + rewrite IH by (intros H'; apply H; now right). reflexivity.
Qed.

Lemma get_ultimo (V : Type) (o : object V) k v :
  ~ In k (List.map fst o) -> get (o ++ [(k, v)]) k = Own v.
Proof.
  intros H. unfold get.
  assert (getOwn (o ++ [(k, v)]) k = Some v) as ->; [|reflexivity].
  induction o as [|[k' w] o IH]; simpl.
  - now rewrite jsstring_eqb_refl.
  - destruct (jsstring_eqb k' k) eqn:E.
    + apply jsstring_eqb_eq in E. exfalso. apply H. now left.
    + apply IH. intros H'. apply H. now right.
Qed.

Lemma primo_ciclo parole :
  fold_left (raggruppa_parola toLowercase) parole (Some [])
  = Some (tabellaK (gruppo_di toLowercase parole) (chiavi toLowercase parole)).
Proof.
  induction parole as [|x parole IH] using rev_ind; [reflexivity|].
  rewrite fold_left_app, IH. cbn [fold_left raggruppa_parola].
  rewrite chiavi_snoc. unfold Set_add.
  rewrite (get_tabellaK_chiave (gruppo_di toLowercase parole) (chiavi toLowercase parole) x).
  set (c := chiaveAnagramma toLowercase x).
  destruct (existsb (jsstring_eqb c) (chiavi toLowercase parole)) eqn:E.
  - unfold c at 1. rewrite get_tabellaK_chiave. fold c. rewrite E. f_equal.
    apply set_tabellaK_in.
    + apply Set_of_NoDup.
    + now apply existsb_jsstring_eqb.
    + rewrite gruppo_di_snoc. fold c. now rewrite jsstring_eqb_refl.
    + intros k Hk. rewrite gruppo_di_snoc. fold c.
      assert (jsstring_eqb c k = false) as ->
        by (apply jsstring_eqb_neq; congruence).
      apply app_nil_r.
  - assert (~ In c (chiavi toLowercase parole)) as Hc
      by (intros H; apply existsb_jsstring_eqb in H; congruence).
    assert (~ In c (List.map fst (tabellaK (gruppo_di toLowercase parole) (chiavi toLowercase parole))))
      as Hc' by (now rewrite tabellaK_keys).
    rewrite (@set_notin _ _ c [] Hc'), (@get_ultimo _ _ c [] Hc'),
      (@set_ultimo _ _ c [] ([] ++ [x]) Hc').
    f_equal. unfold tabellaK. rewrite map_app. simpl. f_equal.
    + apply map_ext_in. intros k Hk. rewrite gruppo_di_snoc. fold c.
      assert (jsstring_eqb c k = false) as ->
        by (apply jsstring_eqb_neq; intros ->; contradiction).
      now rewrite app_nil_r.
    + rewrite gruppo_di_snoc. fold c. rewrite jsstring_eqb_refl.
      assert (gruppo_di toLowercase parole c = []) as ->; [|reflexivity].
      destruct (gruppo_di toLowercase parole c) as [|w ws] eqn:Eg; [reflexivity|].
      exfalso. apply Hc.
      assert (In w (gruppo_di toLowercase parole c)) as Hw by (rewrite Eg; now left).
      apply filter_In in Hw as [Hw Hk]. apply jsstring_eqb_eq in Hk.
      apply Set_of_in. rewrite <- Hk. now apply in_map.
Qed.

End Raggruppa.

(** ** The order of enumeration *)

Lemma Permutation_filter (B : Type) (f : B -> bool) (l1 l2 : list B) :
  Permutation l1 l2 -> Permutation (filter f l1) (filter f l2).
Proof.
  induction 1 as [|x l1 l2 H IH|x y l|l1 l2 l3 H1 IH1 H2 IH2]; simpl.
  - constructor.
  - destruct (f x); [now constructor|exact IH].
  - destruct (f x), (f y); try reflexivity. apply perm_swap.
  - now rewrite IH1.
Qed.

Lemma filtra_gruppo_fold es acc :
  NoDup (List.map fst acc ++ List.map fst es) ->
  fold_left filtra_gruppo es acc = acc ++ filter almeno_due es.
Proof.
  revert acc. induction es as [|[k g] es IH]; intros acc Hnd; simpl.
  - now rewrite app_nil_r.
  - simpl in Hnd. unfold almeno_due at 1. cbn [snd].
    destruct (1 <? length g).
    + rewrite set_notin.
      * rewrite IH.
        -- rewrite <- app_assoc. reflexivity.
        -- rewrite map_app, <- app_assoc. exact Hnd.
      * apply NoDup_remove_2 in Hnd. intros H. apply Hnd.
        apply in_app_iff. now left.
    + apply IH. now apply NoDup_remove_1 in Hnd.
Qed.

Section IndexOrder.

Variable V : Type.

Lemma insertByIndex_in i (e : jsstring * V) sorted x :
  In x (insertByIndex i e sorted) <-> x = (i, e) \/ In x sorted.
Proof.
  split; intros H.
  - apply (Permutation_in _ (insertByIndex_perm i e sorted)) in H.
    destruct H as [<-|H]; [now left|now right].
  - apply (Permutation_in _ (Permutation_sym (insertByIndex_perm i e sorted))).
    destruct H as [->|H]; [now left|now right].
Qed.

Lemma insertByIndex_sorted i (e : jsstring * V) sorted :
  StronglySorted le_indice sorted ->
  StronglySorted le_indice (insertByIndex i e sorted).
Proof.
  induction 1 as [|[i' e'] sorted Hs IH Hh]; simpl.
  - repeat constructor.
  - destruct (N.leb_spec i i') as [Hii|Hii].
    + constructor; [now constructor|].
      constructor; [exact Hii|].
      eapply Forall_impl; [|exact Hh].
      intros [j x] Hj; unfold le_indice in *; simpl in *. lia.
    + constructor; [exact IH|].
      apply Forall_forall. intros x Hx. apply insertByIndex_in in Hx.
      destruct Hx as [->|Hx].
      * unfold le_indice; simpl. lia.
      * rewrite Forall_forall in Hh. now apply Hh.
Qed.

Lemma indexProperties_sorted (o : object V) :
  StronglySorted le_indice (indexProperties o).
Proof.
  induction o as [|e o IH]; simpl; [constructor|].
  destruct (arrayIndex (fst e)); [now apply insertByIndex_sorted|exact IH].
Qed.

Lemma indexProperties_ben (o : object V) :
  Forall ben_indicizzata (indexProperties o).
Proof.
  induction o as [|e o IH]; simpl; [constructor|].
  destruct (arrayIndex (fst e)) as [i|] eqn:E; [|exact IH].
  apply Forall_forall. intros x Hx. apply insertByIndex_in in Hx.
  destruct Hx as [->|Hx]; [exact E|].
  rewrite Forall_forall in IH. now apply IH.
Qed.

Lemma indexProperties_id (IA : list (N * (jsstring * V))) :
  Forall ben_indicizzata IA -> StronglySorted le_indice IA ->
  indexProperties (List.map snd IA) = IA.
Proof.
  intros Hb Hs. induction Hs as [|[i e] IA Hs IH Hh]; [reflexivity|].
  inversion Hb as [|? ? Hbe Hb']; subst.
  cbn [List.map snd indexProperties].
  unfold ben_indicizzata in Hbe. cbn [fst snd] in Hbe. rewrite Hbe.
  rewrite (IH Hb').
  destruct IA as [|[i' e'] IA]; [reflexivity|].
  cbn [insertByIndex].
  inversion Hh as [|? ? Hii _]; subst. unfold le_indice in Hii; simpl in Hii.
  apply N.leb_le in Hii. now rewrite Hii.
Qed.

Lemma indexProperties_app (A B : object V) :
  Forall (fun e => isArrayIndex (fst e) = false) B ->
  indexProperties (A ++ B) = indexProperties A.
Proof.
  intros HB. induction A as [|e A IH]; simpl.
  - induction HB as [|e B He HB IH]; [reflexivity|]. simpl.
    unfold isArrayIndex in He. destruct (arrayIndex (fst e)); [discriminate|exact IH].
  - now rewrite IH.
Qed.

Lemma filter_map_snd (P : jsstring * V -> bool) (IA : list (N * (jsstring * V))) :
  filter P (List.map snd IA) = List.map snd (filter (fun ie => P (snd ie)) IA).
Proof.
  induction IA as [|ie IA IH]; simpl; [reflexivity|].
  destruct (P (snd ie)); simpl; now rewrite IH.
Qed.

Lemma StronglySorted_filter (B : Type) (R : B -> B -> Prop) (f : B -> bool) l :
  StronglySorted R l -> StronglySorted R (filter f l).
Proof.
  induction 1 as [|x l Hl IH Hx]; simpl; [constructor|].
  destruct (f x); [|exact IH]. constructor; [exact IH|].
  apply Forall_forall. intros y Hy. apply filter_In in Hy as [Hy _].
  rewrite Forall_forall in Hx. now apply Hx.
Qed.

Lemma Forall_filter (B : Type) (Q : B -> Prop) (f : B -> bool) l :
  Forall Q l -> Forall Q (filter f l).
Proof.
  intros H. apply Forall_forall. intros y Hy. apply filter_In in Hy as [Hy _].
  rewrite Forall_forall in H. now apply H.
Qed.

Lemma filter_nonindex_indexed (IA : list (N * (jsstring * V))) :
  Forall ben_indicizzata IA ->
  filter (fun e => negb (isArrayIndex (fst e))) (List.map snd IA) = [].
Proof.
  induction 1 as [|ie IA Hb _ IH]; [reflexivity|]. simpl.
  unfold isArrayIndex at 1. unfold ben_indicizzata in Hb. now rewrite Hb.
Qed.

Lemma filter_id (B : Type) (f : B -> bool) l :
  Forall (fun x => f x = true) l -> filter f l = l.
Proof.
  induction 1 as [|x l Hx _ IH]; [reflexivity|]. simpl. now rewrite Hx, IH.
Qed.

(** Listing the surviving entries in enumeration order and putting them
    in a fresh object leaves the enumeration order unchanged. *)
Lemma entries_filter_entries (P : jsstring * V -> bool) (o : object V) :
  entries (filter P (entries o)) = filter P (entries o).
Proof.
  unfold entries at 2 3. rewrite filter_app, filter_map_snd.
  set (IA := filter (fun ie => P (snd ie)) (indexProperties o)).
  set (B := filter P (filter (fun e => negb (isArrayIndex (fst e))) o)).
  assert (Forall ben_indicizzata IA) as HIA
    by apply Forall_filter, indexProperties_ben.
  assert (StronglySorted le_indice IA) as HS
    by apply StronglySorted_filter, indexProperties_sorted.
  assert (Forall (fun e => negb (isArrayIndex (fst e)) = true) B) as HB.
  { apply Forall_filter, Forall_forall. intros e He.
    now apply filter_In in He as [_ He]. }
  unfold entries. rewrite indexProperties_app, (indexProperties_id HIA HS).
  - rewrite filter_app, (filter_nonindex_indexed HIA), (filter_id _ HB).
    reflexivity.
  - eapply Forall_impl; [|exact HB]. intros e He. simpl in He.
    now apply negb_true_iff in He.
Qed.

Lemma indici_sorted (IA : list (N * (jsstring * V))) :
  Forall ben_indicizzata IA -> StronglySorted le_indice IA ->
  StronglySorted indice_le (List.map fst (List.map snd IA)).
Proof.
  intros Hb Hs. induction Hs as [|ie IA Hs IH Hh]; [constructor|].
  inversion Hb as [|? ? Hbe Hb']; subst. simpl.
  constructor; [now apply IH|].
  apply Forall_forall. intros k Hk.
  apply in_map_iff in Hk as (e & <- & He).
  apply in_map_iff in He as (ie' & <- & Hie').
  rewrite Forall_forall in Hh, Hb'.
  specialize (Hh _ Hie'). specialize (Hb' _ Hie').
  unfold indice_le, ben_indicizzata, le_indice in *.
  now rewrite Hbe, Hb'.
Qed.

End IndexOrder.

(** ** The groups *)

Section RaggruppaFacts.

Variable toLowercase : list N -> N -> list N -> list N.

Lemma raggruppaAnagrammi_eq parole :
  raggruppaAnagrammi toLowercase parole
  = Some (filter almeno_due
            (entries (tabellaK (gruppo_di toLowercase parole)
                        (chiavi toLowercase parole)))).
Proof.
  unfold raggruppaAnagrammi. rewrite primo_ciclo. f_equal.
  rewrite filtra_gruppo_fold; [reflexivity|]. simpl.
  apply (Permutation_NoDup (l := chiavi toLowercase parole));
    [|apply Set_of_NoDup].
  rewrite <- (tabellaK_keys (gruppo_di toLowercase parole)) at 1.
  apply Permutation_map. symmetry. apply entries_perm.
Qed.

Lemma gruppo_non_vuoto parole k :
  gruppo_di toLowercase parole k <> [] -> In k (chiavi toLowercase parole).
Proof.
  intros H. destruct (gruppo_di toLowercase parole k) as [|w ws] eqn:E;
    [congruence|].
  assert (In w (gruppo_di toLowercase parole k)) as Hw by (rewrite E; now left).
  apply filter_In in Hw as [Hw Hk]. apply jsstring_eqb_eq in Hk.
  apply Set_of_in. rewrite <- Hk. now apply in_map.
Qed.

Lemma raggruppa_NoDup parole :
  NoDup (List.map fst
           (filter almeno_due
              (entries (tabellaK (gruppo_di toLowercase parole)
                          (chiavi toLowercase parole))))).
Proof.
  set (T := tabellaK _ _).
  assert (NoDup (List.map fst (entries T))) as H.
  { apply (Permutation_NoDup (l := chiavi toLowercase parole));
      [|apply Set_of_NoDup].
    unfold T. rewrite <- (tabellaK_keys (gruppo_di toLowercase parole)) at 1.
    apply Permutation_map. symmetry. apply entries_perm. }
  induction (entries T) as [|e es IH]; simpl; [constructor|].
  inversion H as [|? ? He Hes]; subst.
  destruct (almeno_due e); simpl; [|now apply IH].
  constructor; [|now apply IH].
  intros Hin. apply He. apply in_map_iff in Hin as (x & Hx & Hin).
  apply filter_In in Hin as [Hin _]. apply in_map_iff. now exists x.
Qed.

Lemma raggruppa_lookup parole k g :
  getOwn (filter almeno_due
            (entries (tabellaK (gruppo_di toLowercase parole)
                        (chiavi toLowercase parole)))) k = Some g
  <-> g = gruppo_di toLowercase parole k /\ 2 <= length g.
Proof.
  rewrite (@getOwn_In _ _ k g (raggruppa_NoDup parole)).
  rewrite filter_In. unfold almeno_due. cbn [snd]. rewrite Nat.ltb_lt.
  split.
  - intros [Hin Hlen]. split; [|lia].
    apply (Permutation_in _ (entries_perm _)) in Hin.
    apply in_map_iff in Hin as (k' & Heq & _). now injection Heq as -> ->.
  - intros [-> Hlen]. split; [|lia].
    apply (Permutation_in _ (Permutation_sym (entries_perm _))).
    apply in_map_iff. exists k. split; [reflexivity|].
    apply gruppo_non_vuoto. intros E. rewrite E in Hlen. simpl in Hlen. lia.
Qed.

Lemma map_fst_filter_tabella (Q : jsstring -> bool) parole K :
  List.map fst
    (filter almeno_due
       (filter (fun e => Q (fst e))
          (tabellaK (gruppo_di toLowercase parole) K)))
  = filter Q (filter (fun k => 1 <? length (gruppo_di toLowercase parole k)) K).
Proof.
  induction K as [|k K IH]; [reflexivity|].
  cbn [tabellaK List.map]. fold (tabellaK (gruppo_di toLowercase parole) K).
  cbn [filter fst].
  destruct (Q k) eqn:EQ.
  - cbn [filter]. unfold almeno_due at 1. cbn [snd].
    destruct (1 <? length (gruppo_di toLowercase parole k));
      cbn [filter List.map fst]; rewrite ?EQ, IH; reflexivity.
  - destruct (1 <? length (gruppo_di toLowercase parole k));
      cbn [filter]; rewrite ?EQ; exact IH.
Qed.

End RaggruppaFacts.

(** ** The shuffle *)

Lemma array_get_Some (l : list N) i :
  i < length l -> array_get (List.map Some l) i = Some (nth i l 0%N).
Proof.
  intros Hi. unfold array_get.
  rewrite (nth_indep _ None (Some 0%N)) by (now rewrite length_map).
  apply map_nth.
Qed.

Lemma array_set_Some (l : list N) i v :
  i < length l ->
  array_set (List.map Some l) i (Some v) = List.map Some (aggiorna l i v).
Proof.
  intros Hi. unfold array_set, aggiorna. rewrite length_map.
  apply Nat.ltb_lt in Hi. rewrite Hi.
  rewrite map_app, firstn_map. cbn [List.map]. now rewrite skipn_map.
Qed.

Lemma aggiorna_length l i v : i < length l -> length (aggiorna l i v) = length l.
Proof.
  intros Hi. unfold aggiorna.
  rewrite length_app, length_firstn. cbn [length]. rewrite length_skipn. lia.
Qed.

Lemma aggiorna_middle l1 a l2 v :
  aggiorna (l1 ++ a :: l2) (length l1) v = l1 ++ v :: l2.
Proof.
  unfold aggiorna.
  rewrite firstn_app, firstn_all, Nat.sub_diag. cbn [firstn]. rewrite app_nil_r.
  f_equal. f_equal.
  rewrite skipn_app, skipn_all2 by lia.
  replace (length l1 + 1 - length l1) with 1 by lia. reflexivity.
Qed.

Lemma scambia_Some (l : list N) i j :
  i < length l -> j < length l ->
  scambia (List.map Some l) i j
  = List.map Some (aggiorna (aggiorna l i (nth j l 0%N)) j (nth i l 0%N)).
Proof.
  intros Hi Hj. unfold scambia.
  rewrite !array_get_Some by assumption.
  rewrite array_set_Some by assumption.
  rewrite array_set_Some by (now rewrite aggiorna_length).
  reflexivity.
Qed.

Lemma split_two (l : list N) i j :
  i < j -> j < length l ->
  exists l1 a l2 b l3,
    l = l1 ++ a :: l2 ++ b :: l3
    /\ length l1 = i /\ length (l1 ++ a :: l2) = j.
Proof.
  intros Hij Hj.
  destruct (nth_error l j) as [b|] eqn:Eb;
    [|apply nth_error_None in Eb; lia].
  apply nth_error_split in Eb as (l12 & l3 & -> & Hl12).
  destruct (nth_error l12 i) as [a|] eqn:Ea;
    [|apply nth_error_None in Ea; lia].
  apply nth_error_split in Ea as (l1 & l2 & -> & Hl1).
  exists l1, a, l2, b, l3. rewrite <- app_assoc. cbn [app].
  repeat split; assumption.
Qed.

Lemma aggiorna_at l i v l1 a l2 :
  l = l1 ++ a :: l2 -> length l1 = i -> aggiorna l i v = l1 ++ v :: l2.
Proof. intros -> <-. apply aggiorna_middle. Qed.

Lemma nth_at (l : list N) i l1 a l2 :
  l = l1 ++ a :: l2 -> length l1 = i -> nth i l 0%N = a.
Proof. intros -> <-. apply nth_middle. Qed.

Lemma scambio_lt (l : list N) i j :
  i < j -> j < length l ->
  Permutation (aggiorna (aggiorna l i (nth j l 0%N)) j (nth i l 0%N)) l
  /\ aggiorna (aggiorna l i (nth j l 0%N)) j (nth i l 0%N)
     = aggiorna (aggiorna l j (nth i l 0%N)) i (nth j l 0%N).
Proof.
  intros Hij Hj.
  destruct (split_two l Hij Hj) as (l1 & a & l2 & b & l3 & -> & H1 & H2).
  assert (length (l1 ++ b :: l2) = j) as H2'
    by (rewrite length_app in *; exact H2).
  rewrite (@nth_at _ j (l1 ++ a :: l2) b l3)
    by (rewrite <- ?app_assoc; auto).
  rewrite (@nth_at _ i l1 a (l2 ++ b :: l3)) by auto.
  rewrite (@aggiorna_at (l1 ++ a :: l2 ++ b :: l3) i b l1 a (l2 ++ b :: l3))
    by auto.
  rewrite (@aggiorna_at (l1 ++ b :: l2 ++ b :: l3) j a (l1 ++ b :: l2) b l3)
    by (rewrite <- ?app_assoc; auto).
  rewrite (@aggiorna_at (l1 ++ a :: l2 ++ b :: l3) j a (l1 ++ a :: l2) b l3)
    by (rewrite <- ?app_assoc; auto).
  rewrite <- !app_assoc. cbn [app].
  rewrite (@aggiorna_at (l1 ++ a :: l2 ++ a :: l3) i b l1 a (l2 ++ a :: l3))
    by auto.
  split; [|reflexivity].
  apply Permutation_app_head.
  rewrite <- !(Permutation_middle l2). apply perm_swap.
Qed.

Lemma aggiorna_same (l : list N) i :
  i < length l -> aggiorna l i (nth i l 0%N) = l.
Proof.
  intros Hi.
  destruct (nth_error l i) as [a|] eqn:Ea;
    [|apply nth_error_None in Ea; lia].
  apply nth_error_split in Ea as (l1 & l2 & -> & <-).
  now rewrite nth_middle, aggiorna_middle.
Qed.

Lemma scambio_perm (l : list N) i j :
  i < length l -> j < length l ->
  Permutation (aggiorna (aggiorna l i (nth j l 0%N)) j (nth i l 0%N)) l.
Proof.
  intros Hi Hj. destruct (Nat.lt_total i j) as [H|[->|H]].
  - now apply scambio_lt.
  - rewrite aggiorna_same by exact Hj.
    rewrite aggiorna_same by exact Hj. reflexivity.
  - destruct (scambio_lt l H Hi) as [HP E]. rewrite <- E. exact HP.
Qed.

Lemma join_undefined_Some (l : list N) : join_undefined (List.map Some l) = l.
Proof.
  unfold join_undefined. induction l as [|a l IH]; [reflexivity|].
  simpl. now rewrite IH.
Qed.

Section MescolaFacts.

Variable estrai : nat -> nat.

Lemma mescola_ciclo (indici : list nat) (l : list N) :
  Forall (fun i => i < length l /\ estrai i <= i) indici ->
  exists l',
    fold_left (fun lettere i => scambia lettere i (estrai i)) indici
      (List.map Some l) = List.map Some l'
    /\ Permutation l' l.
Proof.
  intros H. revert l H.
  induction indici as [|i indici IH]; intros l H.
  - exists l. split; reflexivity.
  - inversion H as [|? ? [Hi Hj] H']; subst. cbn [fold_left].
    rewrite scambia_Some by lia.
    set (l1 := aggiorna (aggiorna l i (nth (estrai i) l 0%N)) (estrai i)
                 (nth i l 0%N)).
    assert (Permutation l1 l) as HP by (apply scambio_perm; lia).
    destruct (IH l1) as (l' & E & HP').
    + rewrite (Permutation_length HP). exact H'.
    + exists l'. split; [exact E|]. now rewrite HP'.
Qed.

Lemma mescolaLettere_perm parola :
  (forall i, 1 <= i < length parola -> estrai i <= i) ->
  Permutation (mescolaLettere estrai parola) parola.
Proof.
  intros H. unfold mescolaLettere, split. rewrite length_map.
  destruct (@mescola_ciclo (rev (seq 1 (length parola - 1))) parola)
    as (l' & E & HP).
  - apply Forall_forall. intros i Hi. apply in_rev, in_seq in Hi.
    split; [lia|]. apply H. lia.
  - rewrite E, join_undefined_Some. exact HP.
Qed.

End MescolaFacts.

(** ** Normalization *)

Lemma replace_spazi_senza_spazi s : senza_spazi (replace_spazi s).
Proof.
  apply Forall_forall. intros u Hu. apply filter_In in Hu as [_ Hu].
  now apply negb_true_iff in Hu.
Qed.

Lemma replace_spazi_id s : senza_spazi s -> replace_spazi s = s.
Proof.
  intros H. apply filter_id. eapply Forall_impl; [|exact H].
  intros u Hu. simpl in Hu. now rewrite Hu.
Qed.

Lemma trimStart_id s : senza_spazi s -> trimStart s = s.
Proof. intros [|u r Hu _]; [reflexivity|]. simpl. now rewrite Hu. Qed.

Lemma trim_id s : senza_spazi s -> trim s = s.
Proof.
  intros H. unfold trim. rewrite (trimStart_id H).
  rewrite trimStart_id; [apply rev_involutive|].
  apply Forall_forall. intros u Hu. apply in_rev in Hu.
  unfold senza_spazi in H. rewrite Forall_forall in H. now apply H.
Qed.

Section NormalizzaFacts.

Variable toLowercase : list N -> N -> list N -> list N.

Lemma normalizza_eq parola :
  normalizza toLowercase parola
  = replace_spazi (toLowerCase toLowercase parola).
Proof. unfold normalizza. apply trim_id, replace_spazi_senza_spazi. Qed.

Lemma normalizza_senza_spazi parola :
  senza_spazi (normalizza toLowercase parola).
Proof. rewrite normalizza_eq. apply replace_spazi_senza_spazi. Qed.

Lemma sonoAnagrammi_perm parola1 parola2 :
  sonoAnagrammi toLowercase parola1 parola2 = true
  <-> Permutation (normalizza toLowercase parola1)
        (normalizza toLowercase parola2).
Proof.
  unfold sonoAnagrammi, ordina, join, split.
  set (p1 := normalizza toLowercase parola1).
  set (p2 := normalizza toLowercase parola2).
  split.
  - destruct (Nat.eqb (length p1) (length p2)); simpl; [|discriminate].
    intros H. apply jsstring_eqb_eq in H. now apply Array_sort_eq_iff.
  - intros HP. rewrite (Permutation_length HP), Nat.eqb_refl. simpl.
    apply jsstring_eqb_eq. now apply Array_sort_eq_iff.
Qed.

End NormalizzaFacts.

Lemma isLeadingSurrogate_isSurrogate u :
  isLeadingSurrogate u = true -> isSurrogate u = true.
Proof.
  unfold isLeadingSurrogate, isSurrogate.
  rewrite !andb_true_iff, !N.leb_le. lia.
Qed.

Lemma StringToCodePoints_senza_surrogati s :
  senza_surrogati s -> StringToCodePoints s = s.
Proof.
  induction 1 as [|u s Hu Hs IH]; [reflexivity|].
  cbn [StringToCodePoints]. destruct s as [|v s]; [reflexivity|].
  destruct (isLeadingSurrogate u) eqn:E.
  - apply isLeadingSurrogate_isSurrogate in E. congruence.
  - cbn [andb]. now rewrite IH.
Qed.

Section Contesto.

Variable toLowercase : list N -> N -> list N -> list N.

Lemma lowercaseFrom_senza_contesto before cps :
  senza_contesto toLowercase cps ->
  lowercaseFrom toLowercase before cps
  = flat_map (fun c => toLowercase [] c []) cps.
Proof.
  revert before. induction cps as [|c cps IH]; intros before H; [reflexivity|].
  cbn [lowercaseFrom flat_map]. rewrite (H c) by now left.
  rewrite IH; [reflexivity|]. intros x Hx. apply H. now right.
Qed.

Lemma normalizza_perm s s' :
  senza_surrogati s -> senza_contesto toLowercase s -> Permutation s s' ->
  Permutation (normalizza toLowercase s) (normalizza toLowercase s').
Proof.
  intros Hs Hc HP.
  assert (senza_surrogati s') as Hs'
    by (unfold senza_surrogati; now rewrite <- HP).
  assert (senza_contesto toLowercase s') as Hc'.
  { intros c Hin. apply Hc. eapply Permutation_in; [symmetry; exact HP|exact Hin]. }
  rewrite !normalizza_eq. unfold replace_spazi, toLowerCase, CodePointsToString.
  rewrite !StringToCodePoints_senza_surrogati by assumption.
  rewrite !lowercaseFrom_senza_contesto by assumption.
  apply Permutation_filter, Permutation_flat_map, Permutation_flat_map, HP.
Qed.

End Contesto.

(** ** UTF-16 and lowercase strings *)

Lemma isWhiteSpace_true u :
  isWhiteSpace u = true -> (u <= 0x3000)%N \/ u = 0xFEFF%N.
Proof.
  unfold isWhiteSpace.
  rewrite !orb_true_iff, !andb_true_iff, !N.eqb_eq, !N.leb_le. lia.
Qed.

Lemma isWhiteSpace_surrogate u : isSurrogate u = true -> isWhiteSpace u = false.
Proof.
  unfold isSurrogate. rewrite andb_true_iff, !N.leb_le. intros H.
  destruct (isWhiteSpace u) eqn:E; [|reflexivity].
  apply isWhiteSpace_true in E. lia.
Qed.

Lemma isWhiteSpace_astral c : (0xFFFF < c)%N -> isWhiteSpace c = false.
Proof.
  intros H. destruct (isWhiteSpace c) eqn:E; [|reflexivity].
  apply isWhiteSpace_true in E. lia.
Qed.

Lemma encode_astral c :
  (0xFFFF < c)%N -> (c <= 0x10FFFF)%N ->
  exists hi lo,
    UTF16EncodeCodePoint c = [hi; lo]
    /\ isLeadingSurrogate hi = true /\ isTrailingSurrogate lo = true
    /\ UTF16SurrogatePairToCodePoint hi lo = c.
Proof.
  intros H1 H2. unfold UTF16EncodeCodePoint.
  destruct (N.leb_spec c 0xFFFF); [lia|].
  eexists. eexists. split; [reflexivity|].
  assert (0x400 <> 0)%N as Hnz by lia.
  pose proof (N.div_mod (c - 0x10000) 0x400 Hnz) as Hdm.
  pose proof (N.mod_lt (c - 0x10000) 0x400 Hnz) as Hm.
  assert ((c - 0x10000) / 0x400 <= 0x3FF)%N as Hd.
  { apply N.lt_succ_r. apply N.Div0.div_lt_upper_bound. lia. }
  unfold isLeadingSurrogate, isTrailingSurrogate, UTF16SurrogatePairToCodePoint.
  rewrite !andb_true_iff, !N.leb_le.
  revert Hdm Hm Hd.
  generalize ((c - 0x10000) / 0x400)%N, ((c - 0x10000) mod 0x400)%N.
  intros q r Hdm Hm Hd. lia.
Qed.

Lemma StringToCodePoints_cons_bmp u rest :
  isLeadingSurrogate u = false ->
  StringToCodePoints (u :: rest) = u :: StringToCodePoints rest.
Proof.
  intros H. cbn [StringToCodePoints]. destruct rest; [reflexivity|].
  now rewrite H.
Qed.

Lemma scalare_not_leading c : scalare c = true -> isLeadingSurrogate c = false.
Proof.
  unfold scalare. rewrite andb_true_iff, negb_true_iff. intros [_ H].
  destruct (isLeadingSurrogate c) eqn:E; [|reflexivity].
  apply isLeadingSurrogate_isSurrogate in E. congruence.
Qed.

Lemma CodePointsToString_cons c cps :
  CodePointsToString (c :: cps)
  = UTF16EncodeCodePoint c ++ CodePointsToString cps.
Proof. reflexivity. Qed.

Lemma scalare_max c : scalare c = true -> (c <= 0x10FFFF)%N.
Proof.
  unfold scalare. intros H. apply andb_true_iff in H as [H _].
  now apply N.leb_le.
Qed.

Lemma encode_bmp c : (c <= 0xFFFF)%N -> UTF16EncodeCodePoint c = [c].
Proof.
  intros H. unfold UTF16EncodeCodePoint. apply N.leb_le in H. now rewrite H.
Qed.

(** Decoding undoes encoding on scalar values. *)
Lemma StringToCodePoints_CodePointsToString cps :
  Forall (fun c => scalare c = true) cps ->
  StringToCodePoints (CodePointsToString cps) = cps.
Proof.
  induction 1 as [|c cps Hc _ IH]; [reflexivity|].
  rewrite CodePointsToString_cons.
  destruct (N.leb_spec c 0xFFFF) as [Hle|Hgt].
  - rewrite (encode_bmp Hle). cbn [app].
    rewrite StringToCodePoints_cons_bmp by now apply scalare_not_leading.
    now rewrite IH.
  - destruct (encode_astral Hgt (scalare_max _ Hc))
      as (hi & lo & -> & Hhi & Hlo & Hcp).
    cbn [app StringToCodePoints]. now rewrite Hhi, Hlo, Hcp, IH.
Qed.

Lemma replace_spazi_app s1 s2 :
  replace_spazi (s1 ++ s2) = replace_spazi s1 ++ replace_spazi s2.
Proof. apply filter_app. Qed.

Lemma replace_spazi_CodePointsToString cps :
  Forall (fun c => scalare c = true) cps ->
  replace_spazi (CodePointsToString cps)
  = CodePointsToString (filter (fun c => negb (isWhiteSpace c)) cps).
Proof.
  induction 1 as [|c cps Hc _ IH]; [reflexivity|].
  rewrite CodePointsToString_cons, replace_spazi_app, IH. cbn [filter].
  destruct (N.leb_spec c 0xFFFF) as [Hle|Hgt].
  - rewrite (encode_bmp Hle). unfold replace_spazi at 1. cbn [filter].
    destruct (isWhiteSpace c); cbn [negb app]; [reflexivity|].
    now rewrite CodePointsToString_cons, (encode_bmp Hle).
  - rewrite (isWhiteSpace_astral Hgt). cbn [negb].
    rewrite CodePointsToString_cons.
    destruct (encode_astral Hgt (scalare_max _ Hc))
      as (hi & lo & -> & Hhi & Hlo & _).
    unfold replace_spazi at 1. cbn [filter].
    rewrite (isWhiteSpace_surrogate _ (isLeadingSurrogate_isSurrogate _ Hhi)).
    assert (isSurrogate lo = true) as Hlo'.
    { unfold isTrailingSurrogate in Hlo. unfold isSurrogate.
      rewrite andb_true_iff, !N.leb_le in *. lia. }
    rewrite (isWhiteSpace_surrogate _ Hlo'). reflexivity.
Qed.

(** The code points of a well-formed string are scalar values. *)
Lemma StringToCodePoints_scalari_n n s :
  length s <= n -> stringa_valida s -> isWellFormed s = true ->
  Forall (fun c => scalare c = true) (StringToCodePoints s).
Proof.
  revert s. induction n as [|n IH]; intros s Hn Hv Hw.
  - destruct s; [constructor|simpl in Hn; lia].
  - destruct s as [|u rest]; [constructor|].
    inversion Hv as [|? ? Hu Hrest]; subst.
    cbn [StringToCodePoints isWellFormed] in *.
    destruct rest as [|v rest'].
    + constructor; [|constructor]. unfold scalare.
      rewrite Hw, andb_true_r. apply N.leb_le. lia.
    + inversion Hrest as [|? ? Hv' Hrest']; subst.
      destruct (isLeadingSurrogate u && isTrailingSurrogate v) eqn:E.
      * constructor.
        -- apply andb_true_iff in E as [E1 E2].
           unfold isLeadingSurrogate, isTrailingSurrogate in E1, E2.
           rewrite andb_true_iff, !N.leb_le in E1, E2.
           unfold scalare, isSurrogate, UTF16SurrogatePairToCodePoint.
           rewrite andb_true_iff, negb_true_iff, andb_false_iff, N.leb_le,
             !N.leb_gt. lia.
        -- apply IH; [cbn [length] in Hn |- *; lia|exact Hrest'|exact Hw].
      * apply andb_true_iff in Hw as [Hw1 Hw2]. constructor.
        -- unfold scalare. rewrite Hw1, andb_true_r. apply N.leb_le. lia.
        -- apply IH; [cbn [length] in Hn |- *; lia|exact Hrest|exact Hw2].
Qed.

Lemma StringToCodePoints_scalari s :
  stringa_valida s -> isWellFormed s = true ->
  Forall (fun c => scalare c = true) (StringToCodePoints s).
Proof. apply (@StringToCodePoints_scalari_n (length s)). lia. Qed.

Section Minuscole.

Variable toLowercase : list N -> N -> list N -> list N.

Lemma lowercaseFrom_minuscoli before cps :
  Forall (minuscolo toLowercase) cps -> lowercaseFrom toLowercase before cps = cps.
Proof.
  intros H. revert before. induction H as [|c cps Hc _ IH]; intros before;
    [reflexivity|].
  cbn [lowercaseFrom]. now rewrite Hc, IH.
Qed.

Lemma lowercaseFrom_stabile before cps :
  mappa_stabile toLowercase -> Forall (minuscolo toLowercase) (lowercaseFrom toLowercase before cps).
Proof.
  intros Hs. revert before. induction cps as [|c cps IH]; intros before;
    [constructor|].
  cbn [lowercaseFrom]. apply Forall_app. split; [|apply IH].
  apply Forall_forall. intros x Hx b a. exact (Hs _ _ _ _ Hx b a).
Qed.

Lemma lowercaseFrom_scalari before cps :
  mappa_scalare toLowercase -> Forall (fun c => scalare c = true) cps ->
  Forall (fun c => scalare c = true) (lowercaseFrom toLowercase before cps).
Proof.
  intros Hs H. revert before. induction H as [|c cps Hc _ IH]; intros before;
    [constructor|].
  cbn [lowercaseFrom]. apply Forall_app. split; [|apply IH].
  apply Forall_forall. intros x Hx. exact (Hs _ _ _ _ Hc Hx).
Qed.

Lemma normalizza_minuscola parola :
  mappa_stabile toLowercase -> mappa_scalare toLowercase ->
  stringa_valida parola -> isWellFormed parola = true ->
  toLowerCase toLowercase (normalizza toLowercase parola)
  = normalizza toLowercase parola.
Proof.
  intros Hst Hsc Hv Hw. rewrite normalizza_eq.
  pose (ds := lowercaseFrom toLowercase [] (StringToCodePoints parola)).
  change (toLowerCase toLowercase parola) with (CodePointsToString ds).
  assert (Forall (fun c => scalare c = true) ds) as Hds
    by (apply lowercaseFrom_scalari;
        [exact Hsc|now apply StringToCodePoints_scalari]).
  assert (Forall (minuscolo toLowercase) ds) as Hmin by now apply lowercaseFrom_stabile.
  rewrite (replace_spazi_CodePointsToString Hds).
  unfold toLowerCase.
  rewrite StringToCodePoints_CodePointsToString by now apply Forall_filter.
  rewrite lowercaseFrom_minuscoli by now apply Forall_filter.
  reflexivity.
Qed.

Lemma normalizza_idempotente_se parola :
  toLowerCase toLowercase (normalizza toLowercase parola)
  = normalizza toLowercase parola ->
  normalizza toLowercase (normalizza toLowercase parola)
  = normalizza toLowercase parola.
Proof.
  intros H. rewrite (normalizza_eq toLowercase (normalizza toLowercase parola)).
  rewrite H. apply replace_spazi_id, normalizza_senza_spazi.
Qed.

End Minuscole.

Lemma ucd_stabile : mappa_stabile ucd.
Proof.
  intros before c after x Hx before' after'.
  unfold ucd, UCD.toLowercase, UCD.between in *.
  destruct (N.leb_spec 0x41 c), (N.leb_spec c 0x5A); cbn [andb] in Hx;
    try (destruct Hx as [<-|[]]; confronti; reflexivity).
  all: destruct (N.leb_spec 0xC0 c), (N.leb_spec c 0xDE), (N.eqb_spec c 0xD7);
    cbn [andb negb] in Hx;
    try (destruct Hx as [<-|[]]; confronti; reflexivity).
  all: destruct (N.eqb_spec c 0x3A3);
    try (destruct (UCD.Final_Sigma before after);
         destruct Hx as [<-|[]]; reflexivity).
  all: destruct (N.leb_spec 0x391 c), (N.leb_spec c 0x3A9), (N.eqb_spec c 0x3A2);
    cbn [andb negb] in Hx;
    try (destruct Hx as [<-|[]]; confronti; reflexivity).
  all: destruct (N.leb_spec 0x10400 c), (N.leb_spec c 0x10427);
    cbn [andb] in Hx;
    try (destruct Hx as [<-|[]]; confronti; reflexivity).
Qed.

(** ** The fragment [ucd] of the database *)

Lemma ucd_scalare : mappa_scalare ucd.
Proof.
  intros before c after x Hc Hx.
  unfold scalare, isSurrogate in *.
  rewrite andb_true_iff, negb_true_iff, andb_false_iff, N.leb_le, !N.leb_gt in *.
  unfold ucd, UCD.toLowercase, UCD.between in Hx.
  destruct (N.leb_spec 0x41 c), (N.leb_spec c 0x5A); cbn [andb] in Hx;
    try (destruct Hx as [<-|[]]; lia).
  all: destruct (N.leb_spec 0xC0 c), (N.leb_spec c 0xDE), (N.eqb_spec c 0xD7);
    cbn [andb negb] in Hx; try (destruct Hx as [<-|[]]; lia).
  all: destruct (N.eqb_spec c 0x3A3);
    try (destruct (UCD.Final_Sigma before after); destruct Hx as [<-|[]]; lia).
  all: destruct (N.leb_spec 0x391 c), (N.leb_spec c 0x3A9), (N.eqb_spec c 0x3A2);
    cbn [andb negb] in Hx; try (destruct Hx as [<-|[]]; lia).
  all: destruct (N.leb_spec 0x10400 c), (N.leb_spec c 0x10427);
    cbn [andb] in Hx; try (destruct Hx as [<-|[]]; lia).
Qed.

Lemma senza_contesto_ucd s :
  ~ In 0x3A3%N s -> senza_contesto ucd s.
Proof.
  intros H c Hc before after. unfold ucd, UCD.toLowercase.
  destruct (N.eqb_spec c 0x3A3) as [->|_]; [contradiction|reflexivity].
Qed.

Lemma stringa_valida_js s : stringa_valida (js s).
Proof.
  unfold js, stringa_valida. apply Forall_forall. intros u Hu.
  apply in_map_iff in Hu as (a & <- & _).
  pose proof (N_ascii_bounded a). lia.
Qed.

Lemma distinti_pos l : 1 <= distinti l.
Proof.
  unfold distinti.
  assert (In l (Set_of (permutazioni l))) as H
    by (apply Set_of_permutazioni_in; reflexivity).
  destruct (Set_of (permutazioni l)); [destruct H|simpl; lia].
Qed.


Lemma Set_of_NoDup_id_da (visti array : list jsstring) :
  NoDup (visti ++ array) -> fold_left Set_add array visti = visti ++ array.
Proof.
  revert visti. induction array as [|x array IH]; intros visti H; simpl.
  - now rewrite app_nil_r.
  - assert (Set_add visti x = visti ++ [x]) as ->.
    { unfold Set_add. destruct (existsb (jsstring_eqb x) visti) eqn:E;
        [|reflexivity].
      apply existsb_jsstring_eqb in E. apply NoDup_remove_2 in H.
      exfalso. apply H. apply in_app_iff. now left. }
    rewrite IH; rewrite <- app_assoc; [reflexivity|exact H].
Qed.

Section LemmiFinali.

Variable toLowercase : list N -> N -> list N -> list N.

Lemma chiave_eq_iff parola1 parola2 :
  chiaveAnagramma toLowercase parola1 = chiaveAnagramma toLowercase parola2
  <-> Permutation (normalizza toLowercase parola1)
        (normalizza toLowercase parola2).
Proof. unfold chiaveAnagramma, join, split. apply Array_sort_eq_iff. Qed.

Lemma generaAnagrammi_in parola unicoRisultato p :
  In p (generaAnagrammi toLowercase parola unicoRisultato)
  <-> Permutation p (normalizza toLowercase parola).
Proof.
  unfold generaAnagrammi, split. rewrite map_join_id.
  destruct unicoRisultato.
  - apply Set_of_permutazioni_in.
  - split; [apply permutazioni_sound|apply permutazioni_complete].
Qed.

Lemma gruppo_di_length (parole : list jsstring) k :
  length (gruppo_di toLowercase parole k)
  = count_occ (list_eq_dec N.eq_dec)
      (List.map (chiaveAnagramma toLowercase) parole) k.
Proof.
  unfold gruppo_di. induction parole as [|w parole IH]; [reflexivity|].
  cbn [filter List.map count_occ].
  destruct (list_eq_dec N.eq_dec (chiaveAnagramma toLowercase w) k) as [E|E].
  - apply jsstring_eqb_eq in E. rewrite E. cbn [length]. now rewrite IH.
  - apply jsstring_eqb_neq in E. rewrite E. exact IH.
Qed.

End LemmiFinali.

(** * The claims *)

(** C6 (amended).  [sonoAnagrammi] answers false whenever the normalized
    words differ in length, counted in UTF-16 code units.  [ordina]
    yields the sorted sequence of the code units of a word, and when the
    lengths agree [sonoAnagrammi] answers true exactly when the sorted
    sequences of code units of the two normalized words are equal, that
    is when the two words have a sorted sequence in common.  When neither
    normalized word holds a surrogate code unit, code units are symbols
    (code points): the same holds of the lengths and the sorted sequences
    of symbols. *)
Theorem sonoAnagrammi_spec :
  forall toLowercase parola1 parola2,
    let p1 := normalizza toLowercase parola1 in
    let p2 := normalizza toLowercase parola2 in
    (length p1 <> length p2 ->
     sonoAnagrammi toLowercase parola1 parola2 = false)
    /\ (ordinamento_di (ordina p1) p1 /\ ordinamento_di (ordina p2) p2)
    /\ (length p1 = length p2 ->
        (sonoAnagrammi toLowercase parola1 parola2 = true
         <-> ordina p1 = ordina p2))
    /\ (sonoAnagrammi toLowercase parola1 parola2 = true
        <-> exists s, ordinamento_di s p1 /\ ordinamento_di s p2)
    /\ (senza_surrogati p1 -> senza_surrogati p2 ->
        (length (StringToCodePoints p1) <> length (StringToCodePoints p2) ->
         sonoAnagrammi toLowercase parola1 parola2 = false)
        /\ (length (StringToCodePoints p1) = length (StringToCodePoints p2) ->
            (sonoAnagrammi toLowercase parola1 parola2 = true
             <-> exists s, ordinamento_di s (StringToCodePoints p1)
                           /\ ordinamento_di s (StringToCodePoints p2)))).
Proof.
  intros toLowercase parola1 parola2 p1 p2.
  assert (length p1 <> length p2 ->
          sonoAnagrammi toLowercase parola1 parola2 = false) as Hlen.
  { intros H. unfold sonoAnagrammi. fold p1 p2.
    apply Nat.eqb_neq in H. now rewrite H. }
  assert (sonoAnagrammi toLowercase parola1 parola2 = true
          <-> exists s, ordinamento_di s p1 /\ ordinamento_di s p2) as Hiff.
  { rewrite ordinamento_comune. apply sonoAnagrammi_perm. }
  split; [exact Hlen|].
  split; [split; apply ordina_ordinamento|].
  split.
  { intros H. unfold sonoAnagrammi. fold p1 p2.
    rewrite H, Nat.eqb_refl. cbn [negb]. apply jsstring_eqb_eq. }
  split; [exact Hiff|].
  intros H1 H2.
  rewrite !StringToCodePoints_senza_surrogati by assumption.
  split; [exact Hlen|]. intros _. exact Hiff.
Qed.

Lemma sonoAnagrammi_spec_witness :
  senza_surrogati (normalizza ucd (js "Roma"))
  /\ senza_surrogati (normalizza ucd (js "a mor"))
  /\ length (StringToCodePoints (normalizza ucd (js "Roma")))
     = length (StringToCodePoints (normalizza ucd (js "a mor")))
  /\ (sonoAnagrammi ucd (js "Roma") (js "a mor") = true
      <-> exists s,
            ordinamento_di s (StringToCodePoints (normalizza ucd (js "Roma")))
            /\ ordinamento_di s
                 (StringToCodePoints (normalizza ucd (js "a mor")))).
Proof.
  assert (senza_surrogati (normalizza ucd (js "Roma"))) as H1
    by (change (senza_surrogati [114; 111; 109; 97]%N);
        repeat constructor).
  assert (senza_surrogati (normalizza ucd (js "a mor"))) as H2
    by (change (senza_surrogati [97; 109; 111; 114]%N);
        repeat constructor).
  assert (length (StringToCodePoints (normalizza ucd (js "Roma")))
          = length (StringToCodePoints (normalizza ucd (js "a mor")))) as H3
    by reflexivity.
  split; [exact H1|]. split; [exact H2|]. split; [exact H3|].
  exact (proj2 (proj2 (proj2 (proj2 (proj2
           (sonoAnagrammi_spec ucd (js "Roma") (js "a mor"))))) H1 H2) H3).
Defined.

(** C6 as stated fails on two well-formed words of two astral characters
    each, U+1F600 U+1F900 and U+1F500 U+1FA00: they have no symbol in
    common, yet their code units are the same four, and [sonoAnagrammi]
    answers true. *)
Lemma sonoAnagrammi_simboli_cex :
  let parola1 := [0xD83D; 0xDE00; 0xD83E; 0xDD00]%N in
  let parola2 := [0xD83D; 0xDD00; 0xD83E; 0xDE00]%N in
  isWellFormed parola1 = true /\ isWellFormed parola2 = true
  /\ StringToCodePoints (normalizza ucd parola1) = [0x1F600; 0x1F900]%N
  /\ StringToCodePoints (normalizza ucd parola2) = [0x1F500; 0x1FA00]%N
  /\ sonoAnagrammi ucd parola1 parola2 = true
  /\ ~ exists s,
         ordinamento_di s (StringToCodePoints (normalizza ucd parola1))
         /\ ordinamento_di s (StringToCodePoints (normalizza ucd parola2)).
Proof.
  intros parola1 parola2.
  assert (StringToCodePoints (normalizza ucd parola1) = [0x1F600; 0x1F900]%N)
    as E1 by (vm_compute; reflexivity).
  assert (StringToCodePoints (normalizza ucd parola2) = [0x1F500; 0x1FA00]%N)
    as E2 by (vm_compute; reflexivity).
  split; [reflexivity|]. split; [reflexivity|].
  split; [exact E1|]. split; [exact E2|].
  split; [vm_compute; reflexivity|].
  rewrite E1, E2. intros (s & [_ Ha] & [_ Hb]).
  assert (In 0x1F600%N [0x1F500; 0x1FA00]%N) as Hin.
  { eapply Permutation_in; [exact Hb|].
    eapply Permutation_in; [symmetry; exact Ha|]. now left. }
  destruct Hin as [H|[H|[]]]; discriminate.
Qed.

(** C3.  [permutazioni] returns n! orderings of an array of n elements.
    They are the images of the orderings of the positions 0..n-1, and each
    ordering of the positions appears exactly once.  Hence
    [generaAnagrammi] without deduplication returns as many strings as the
    factorial of the length of the normalized word. *)
Theorem permutazioni_fattoriale :
  (forall (A : Type) (array : list A),
     length (permutazioni array) = fact (length array)
     /\ List.map (List.map Some) (permutazioni array)
        = List.map (List.map (nth_error array))
            (permutazioni (seq 0 (length array)))
     /\ NoDup (permutazioni (seq 0 (length array)))
     /\ forall p, In p (permutazioni (seq 0 (length array)))
                  <-> Permutation p (seq 0 (length array)))
  /\ (forall toLowercase parola,
        length (generaAnagrammi toLowercase parola false)
        = fact (length (normalizza toLowercase parola))).
Proof.
  split.
  - intros A array. split; [apply permutazioni_length|]. split; [|split].
    + rewrite <- !permutazioni_map. now rewrite map_nth_error_seq.
    + apply permutazioni_NoDup, seq_NoDup.
    + intros p. split; [apply permutazioni_sound|apply permutazioni_complete].
  - apply generaAnagrammi_tutti_length.
Qed.

(** C1.  On a word of 23 letters, one a, 21 b and one c,
    [generaAnagrammi] with deduplication has 506 strings, and
    [contaAnagrammi] returns 506.00000000000006, which is no integer:
    the factorials 23! and 21! are products of binary64 numbers and are
    rounded. *)
Theorem contaAnagrammi_generaAnagrammi_23 :
  let parola := js "abbbbbbbbbbbbbbbbbbbbbc" in
  length (generaAnagrammi ucd parola true) = 506
  /\ contaAnagrammi ucd parola = 0x1.fa00000000001p+8%float
  /\ Number_to_Z (contaAnagrammi ucd parola) = None.
Proof.
  intros parola. split; [|split; vm_compute; reflexivity].
  rewrite generaAnagrammi_unici_length.
  assert (normalizza ucd parola
          = 97%N :: repeat 98%N 21 ++ [99%N]) as -> by (vm_compute; reflexivity).
  set (l := (97 :: repeat 98 21 ++ [99])%N).
  assert (distinti l * 1 = (21 + 2) * (21 + 1)) as H.
  { apply (@distinti_quoziente l [97; 98; 99]%N 21 1).
    - repeat constructor; simpl; intuition discriminate.
    - intros u Hu. vm_compute in Hu. vm_compute. tauto.
    - reflexivity.
    - rewrite !prodotto_fattoriali_cons, prodotto_fattoriali_nil.
      assert (occorrenze 97 l = 1) as -> by (vm_compute; reflexivity).
      assert (occorrenze 98 l = 21) as -> by (vm_compute; reflexivity).
      assert (occorrenze 99 l = 1) as -> by (vm_compute; reflexivity).
      rewrite fact_uno. generalize (fact 21). intros f. lia. }
  rewrite Nat.mul_1_r in H. exact H.
Qed.

(** C2 (amended).  [contaAnagrammi] returns 1 for the empty string, 24
    for "cane" and 6 for "anna". *)
Theorem contaAnagrammi_esempi :
  contaAnagrammi ucd (js "") = 1%float
  /\ contaAnagrammi ucd (js "cane") = 24%float
  /\ contaAnagrammi ucd (js "anna") = 6%float.
Proof. repeat split; vm_compute; reflexivity. Qed.

(** C2 as stated fails: the count of "anna" is not 12. *)
Lemma contaAnagrammi_anna_cex :
  contaAnagrammi ucd (js "anna") <> 12%float.
Proof.
  intros H. apply (f_equal Number_to_Z) in H. vm_compute in H. discriminate.
Qed.

(** C4.  On a word of 23 letters, 21 a and 2 b, the multinomial
    coefficient is 253 and [contaAnagrammi] returns 253.00000000000003,
    which is no integer; on 171 letters a the two factorials are
    Infinity and [contaAnagrammi] returns NaN. *)
Theorem contaAnagrammi_intero_23 :
  let parola := js "aaaaaaaaaaaaaaaaaaaaabb" in
  multinomiale (normalizza ucd parola) = 253
  /\ contaAnagrammi ucd parola = 0x1.fa00000000001p+7%float
  /\ Number_to_Z (contaAnagrammi ucd parola) = None
  /\ PrimFloat.is_nan (contaAnagrammi ucd (repeat 97%N 171)) = true.
Proof.
  intros parola. split; [|repeat split; vm_compute; reflexivity].
  rewrite <- distinti_multinomiale.
  assert (normalizza ucd parola
          = repeat 97%N 21 ++ [98; 98]%N) as -> by (vm_compute; reflexivity).
  set (l := (repeat 97 21 ++ [98; 98])%N).
  assert (distinti l * 2 = (21 + 2) * (21 + 1)) as H.
  { apply (@distinti_quoziente l [97; 98]%N 21 2).
    - repeat constructor; simpl; intuition discriminate.
    - intros u Hu. vm_compute in Hu. vm_compute. tauto.
    - reflexivity.
    - rewrite !prodotto_fattoriali_cons, prodotto_fattoriali_nil.
      assert (occorrenze 97 l = 21) as -> by (vm_compute; reflexivity).
      assert (occorrenze 98 l = 2) as -> by (vm_compute; reflexivity).
      rewrite fact_due. generalize (fact 21). intros f. lia. }
  change ((21 + 2) * (21 + 1)) with 506 in H. lia.
Qed.

(** C5 (amended).  The keys of the object returned by
    [raggruppaAnagrammi] are listed as follows: first the keys that are
    array indices (canonical decimals below 2^32 - 1, the keys of words
    made of digits), in ascending numeric order; then the other keys, in
    the order of their first occurrence in the word list. *)
Theorem raggruppaAnagrammi_ordine_chiavi :
  forall toLowercase parole,
  exists risultato,
    raggruppaAnagrammi toLowercase parole = Some risultato
    /\ exists indici altri,
         keys risultato = indici ++ altri
         /\ altri = filter (fun k => negb (isArrayIndex k))
                      (chiavi_gruppi toLowercase parole)
         /\ Permutation indici
              (filter isArrayIndex (chiavi_gruppi toLowercase parole))
         /\ StronglySorted indice_le indici.
Proof.
  intros toLowercase parole.
  eexists. split; [apply raggruppaAnagrammi_eq|].
  unfold keys. rewrite entries_filter_entries.
  set (T := tabellaK (gruppo_di toLowercase parole) (chiavi toLowercase parole)).
  unfold entries. rewrite filter_app, map_app, filter_map_snd.
  eexists. eexists. split; [reflexivity|]. split; [|split].
  - unfold T. apply (@map_fst_filter_tabella toLowercase
                       (fun k => negb (isArrayIndex k))).
  - rewrite <- filter_map_snd.
    rewrite (Permutation_filter almeno_due (indexProperties_perm T)).
    unfold T. rewrite (@map_fst_filter_tabella toLowercase isArrayIndex).
    reflexivity.
  - apply indici_sorted.
    + apply Forall_filter, indexProperties_ben.
    + apply StronglySorted_filter, indexProperties_sorted.
Qed.

(** C5 as stated fails on ["ab"; "ba"; "21"; "12"]: the keys come out as
    "12", "ab", while "ab" occurs first. *)
Lemma raggruppaAnagrammi_ordine_cex :
  option_map (@keys _)
    (raggruppaAnagrammi ucd (List.map js ["ab"; "ba"; "21"; "12"]%string))
  <> Some (chiavi_gruppi ucd (List.map js ["ab"; "ba"; "21"; "12"]%string)).
Proof. vm_compute. discriminate. Qed.

(** C7.  [raggruppaAnagrammi] returns, for every word list, an object
    whose properties are exactly the groups of two or more words: the
    value at a key is the list of the original words with that key, in
    input order.  On roma, amor, mora, cane, acne, casa it returns the
    groups roma/amor/mora and cane/acne, and casa is left out. *)
Theorem raggruppaAnagrammi_gruppi :
  (forall toLowercase parole,
   exists risultato,
     raggruppaAnagrammi toLowercase parole = Some risultato
     /\ NoDup (List.map fst risultato)
     /\ forall chiave gruppo,
          getOwn risultato chiave = Some gruppo
          <-> gruppo
              = filter
                  (fun parola =>
                     jsstring_eqb (chiaveAnagramma toLowercase parola) chiave)
                  parole
              /\ 2 <= length gruppo)
  /\ raggruppaAnagrammi ucd parole_demo
     = Some [(js "amor", List.map js ["roma"; "amor"; "mora"]%string);
             (js "acen", List.map js ["cane"; "acne"]%string)].
Proof.
  split.
  - intros toLowercase parole. eexists.
    split; [apply raggruppaAnagrammi_eq|]. split.
    + apply raggruppa_NoDup.
    + intros chiave gruppo. apply raggruppa_lookup.
  - vm_compute. reflexivity.
Qed.

(** C8 (amended).  Whatever indices j in [0, i] the loop draws,
    [mescolaLettere] returns a word with the length and the code units of
    the word given, which it does not normalize; [sonoAnagrammi] holds
    between the two when the word has no surrogate code unit and the
    lowercase mapping of its code points does not depend on the context. *)
Theorem mescolaLettere_anagramma :
  forall toLowercase estrai parola,
    (forall i, 1 <= i < length parola -> estrai i <= i) ->
    length (mescolaLettere estrai parola) = length parola
    /\ Permutation (mescolaLettere estrai parola) parola
    /\ (senza_surrogati parola -> senza_contesto toLowercase parola ->
        sonoAnagrammi toLowercase (mescolaLettere estrai parola) parola = true).
Proof.
  intros toLowercase estrai parola H.
  pose proof (mescolaLettere_perm estrai parola H) as HP.
  split; [now apply Permutation_length|]. split; [exact HP|].
  intros Hs Hc. apply sonoAnagrammi_perm. symmetry.
  now apply normalizza_perm.
Qed.

Lemma mescolaLettere_anagramma_witness :
  (forall i, 1 <= i < length (js "Roma") -> (fun _ : nat => 0) i <= i)
  /\ length (mescolaLettere (fun _ => 0) (js "Roma")) = length (js "Roma")
  /\ Permutation (mescolaLettere (fun _ => 0) (js "Roma")) (js "Roma")
  /\ (senza_surrogati (js "Roma") -> senza_contesto ucd (js "Roma") ->
      sonoAnagrammi ucd (mescolaLettere (fun _ => 0) (js "Roma")) (js "Roma")
      = true).
Proof.
  split.
  - intros i _. lia.
  - apply (@mescolaLettere_anagramma ucd (fun _ => 0) (js "Roma")).
    intros i _. lia.
Defined.

(** C8 as stated fails on the Greek word alpha, capital sigma: swapped,
    the sigma is no longer final and lowercases to another letter. *)
Lemma mescolaLettere_sigma_cex :
  (forall i, 1 <= i < length [0x391; 0x3A3]%N -> (fun _ : nat => 0) i <= i)
  /\ sonoAnagrammi ucd (mescolaLettere (fun _ => 0) [0x391; 0x3A3]%N)
       [0x391; 0x3A3]%N = false.
Proof. split; [intros i _; lia|vm_compute; reflexivity]. Qed.

(** C9 (amended).  [normalizza] returns a string without white space; the
    string is lowercase (lowercasing leaves it unchanged) when the input
    has no unpaired surrogate. *)
Theorem normalizza_senza_spazi_minuscola :
  forall toLowercase parola,
    Forall (fun u => isWhiteSpace u = false) (normalizza toLowercase parola)
    /\ (mappa_stabile toLowercase -> mappa_scalare toLowercase ->
        stringa_valida parola -> isWellFormed parola = true ->
        toLowerCase toLowercase (normalizza toLowercase parola)
        = normalizza toLowercase parola).
Proof.
  intros toLowercase parola. split.
  - apply normalizza_senza_spazi.
  - apply normalizza_minuscola.
Qed.

Lemma normalizza_senza_spazi_minuscola_witness :
  Forall (fun u => isWhiteSpace u = false) (normalizza ucd (js " Ro Ma "))
  /\ toLowerCase ucd (normalizza ucd (js " Ro Ma "))
     = normalizza ucd (js " Ro Ma ").
Proof.
  destruct (normalizza_senza_spazi_minuscola ucd (js " Ro Ma ")) as [H1 H2].
  split; [exact H1|].
  apply H2; [exact ucd_stabile|exact ucd_scalare|apply stringa_valida_js|].
  reflexivity.
Defined.

(** C9 as stated fails when a space separates the halves of a surrogate
    pair: the result is the capital letter U+10400. *)
Lemma normalizza_minuscola_cex :
  stringa_valida [0xD801; 0x20; 0xDC00]%N
  /\ toLowerCase ucd (normalizza ucd [0xD801; 0x20; 0xDC00]%N)
     <> normalizza ucd [0xD801; 0x20; 0xDC00]%N.
Proof.
  split.
  - repeat constructor; lia.
  - vm_compute. discriminate.
Qed.

(** C10 (amended).  [normalizza] is idempotent on every string without
    unpaired surrogates. *)
Theorem normalizza_idempotente :
  forall toLowercase parola,
    mappa_stabile toLowercase -> mappa_scalare toLowercase ->
    stringa_valida parola -> isWellFormed parola = true ->
    normalizza toLowercase (normalizza toLowercase parola)
    = normalizza toLowercase parola.
Proof.
  intros toLowercase parola Hst Hsc Hv Hw.
  apply normalizza_idempotente_se. now apply normalizza_minuscola.
Qed.

Lemma normalizza_idempotente_witness :
  normalizza ucd (normalizza ucd (js "Buon Giorno"))
  = normalizza ucd (js "Buon Giorno").
Proof.
  apply (@normalizza_idempotente ucd (js "Buon Giorno") ucd_stabile
           ucd_scalare (stringa_valida_js "Buon Giorno")).
  reflexivity.
Defined.

(** C10 as stated fails when a tab separates the halves of a surrogate
    pair. *)
Lemma normalizza_idempotente_cex :
  stringa_valida [0xD801; 0x09; 0xDC00]%N
  /\ normalizza ucd (normalizza ucd [0xD801; 0x09; 0xDC00]%N)
     <> normalizza ucd [0xD801; 0x09; 0xDC00]%N.
Proof.
  split.
  - repeat constructor; lia.
  - vm_compute. discriminate.
Qed.

(** * Further properties of the code *)

(** X1.  [sonoAnagrammi] is reflexive and symmetric. *)
Theorem sonoAnagrammi_riflessiva_simmetrica :
  forall toLowercase parola1 parola2,
    sonoAnagrammi toLowercase parola1 parola1 = true
    /\ sonoAnagrammi toLowercase parola1 parola2
       = sonoAnagrammi toLowercase parola2 parola1.
Proof.
  intros toLowercase parola1 parola2.
  split; [now apply sonoAnagrammi_perm|].
  destruct (sonoAnagrammi toLowercase parola1 parola2) eqn:E1,
           (sonoAnagrammi toLowercase parola2 parola1) eqn:E2;
    try reflexivity.
  - apply sonoAnagrammi_perm in E1. symmetry in E1.
    apply sonoAnagrammi_perm in E1. congruence.
  - apply sonoAnagrammi_perm in E2. symmetry in E2.
    apply sonoAnagrammi_perm in E2. congruence.
Qed.

(** X2.  [sonoAnagrammi] is transitive. *)
Theorem sonoAnagrammi_transitiva :
  forall toLowercase parola1 parola2 parola3,
    sonoAnagrammi toLowercase parola1 parola2 = true ->
    sonoAnagrammi toLowercase parola2 parola3 = true ->
    sonoAnagrammi toLowercase parola1 parola3 = true.
Proof.
  intros toLowercase parola1 parola2 parola3.
  rewrite !sonoAnagrammi_perm. intros H1 H2. now rewrite H1.
Qed.

Lemma sonoAnagrammi_transitiva_witness :
  sonoAnagrammi ucd (js "Roma") (js "a mor") = true
  /\ sonoAnagrammi ucd (js "a mor") (js "MORA") = true
  /\ sonoAnagrammi ucd (js "Roma") (js "MORA") = true.
Proof.
  assert (sonoAnagrammi ucd (js "Roma") (js "a mor") = true) as H1
    by reflexivity.
  assert (sonoAnagrammi ucd (js "a mor") (js "MORA") = true) as H2
    by reflexivity.
  split; [exact H1|]. split; [exact H2|].
  exact (@sonoAnagrammi_transitiva ucd (js "Roma") (js "a mor") (js "MORA")
           H1 H2).
Defined.

(** X3.  [sonoAnagrammi] holds exactly when every code unit occurs as
    often in one normalized word as in the other. *)
Theorem sonoAnagrammi_occorrenze :
  forall toLowercase parola1 parola2,
    sonoAnagrammi toLowercase parola1 parola2 = true
    <-> forall u,
          occorrenze u (normalizza toLowercase parola1)
          = occorrenze u (normalizza toLowercase parola2).
Proof.
  intros toLowercase parola1 parola2.
  rewrite sonoAnagrammi_perm. unfold occorrenze.
  apply (Permutation_count_occ N.eq_dec).
Qed.

(** X4.  Two words have the same [chiaveAnagramma] exactly when
    [sonoAnagrammi] holds of them. *)
Theorem chiaveAnagramma_sonoAnagrammi :
  forall toLowercase parola1 parola2,
    chiaveAnagramma toLowercase parola1 = chiaveAnagramma toLowercase parola2
    <-> sonoAnagrammi toLowercase parola1 parola2 = true.
Proof.
  intros toLowercase parola1 parola2.
  rewrite sonoAnagrammi_perm. apply chiave_eq_iff.
Qed.

(** X5.  The [trim()] that ends [normalizza] never changes the string:
    nothing is left to trim once the white space is deleted. *)
Theorem normalizza_trim_superfluo :
  forall toLowercase parola,
    normalizza toLowercase parola
    = replace_spazi (toLowerCase toLowercase parola).
Proof. intros toLowercase parola. apply normalizza_eq. Qed.

(** X6.  The orderings [permutazioni] returns are exactly the
    rearrangements of the array, whatever its elements (repeated ones
    included). *)
Theorem permutazioni_membri :
  forall (A : Type) (array p : list A),
    In p (permutazioni array) <-> Permutation p array.
Proof.
  intros A array p.
  split; [apply permutazioni_sound|apply permutazioni_complete].
Qed.

(** X7.  With or without deduplication, the strings of [generaAnagrammi]
    are exactly the orderings of the code units of the normalized word;
    with deduplication no string is repeated. *)
Theorem generaAnagrammi_membri :
  forall toLowercase parola unicoRisultato p,
    (In p (generaAnagrammi toLowercase parola unicoRisultato)
     <-> Permutation p (normalizza toLowercase parola))
    /\ NoDup (generaAnagrammi toLowercase parola true).
Proof.
  intros toLowercase parola unicoRisultato p.
  split; [apply generaAnagrammi_in|].
  unfold generaAnagrammi, split. rewrite map_join_id. apply Set_of_NoDup.
Qed.

(** X8.  When the normalized word repeats no code unit, deduplication
    changes nothing: both modes of [generaAnagrammi] return the same
    array. *)
Theorem generaAnagrammi_lettere_distinte :
  forall toLowercase parola,
    NoDup (normalizza toLowercase parola) ->
    generaAnagrammi toLowercase parola true
    = generaAnagrammi toLowercase parola false.
Proof.
  intros toLowercase parola H. unfold generaAnagrammi, split.
  rewrite map_join_id.
  unfold Set_of. rewrite Set_of_NoDup_id_da; [reflexivity|].
  now apply permutazioni_NoDup.
Qed.

Lemma generaAnagrammi_lettere_distinte_witness :
  NoDup (normalizza ucd (js "Due"))
  /\ generaAnagrammi ucd (js "Due") true = generaAnagrammi ucd (js "Due") false.
Proof.
  assert (NoDup (normalizza ucd (js "Due"))) as H.
  { change (NoDup [100; 117; 101]%N).
    repeat constructor; simpl; intuition discriminate. }
  split; [exact H|].
  exact (@generaAnagrammi_lettere_distinte ucd (js "Due") H).
Defined.

(** X9.  Every string of [generaAnagrammi] is an anagram of the word, as
    [sonoAnagrammi] judges it, when the word has no unpaired surrogate
    and its normalized form has no surrogate and no code point whose
    lowercase mapping depends on the context. *)
Theorem generaAnagrammi_anagrammi :
  forall toLowercase parola unicoRisultato p,
    mappa_stabile toLowercase -> mappa_scalare toLowercase ->
    stringa_valida parola -> isWellFormed parola = true ->
    senza_surrogati (normalizza toLowercase parola) ->
    senza_contesto toLowercase (normalizza toLowercase parola) ->
    In p (generaAnagrammi toLowercase parola unicoRisultato) ->
    sonoAnagrammi toLowercase p parola = true.
Proof.
  intros toLowercase parola unicoRisultato p Hst Hsc Hv Hw Hs Hc Hp.
  apply generaAnagrammi_in in Hp.
  apply sonoAnagrammi_perm. symmetry.
  rewrite <- (@normalizza_idempotente_se toLowercase parola
                (@normalizza_minuscola toLowercase parola Hst Hsc Hv Hw))
    at 1.
  apply normalizza_perm; [exact Hs|exact Hc|now symmetry].
Qed.

Lemma generaAnagrammi_anagrammi_witness :
  In (js "amor") (generaAnagrammi ucd (js "Roma") true)
  /\ sonoAnagrammi ucd (js "amor") (js "Roma") = true.
Proof.
  assert (In (js "amor") (generaAnagrammi ucd (js "Roma") true)) as Hin.
  { apply (proj2 (generaAnagrammi_in ucd (js "Roma") true (js "amor"))).
    change (Permutation [97; 109; 111; 114]%N [114; 111; 109; 97]%N).
    apply (Permutation_rev [97; 109; 111; 114]%N). }
  split; [exact Hin|].
  apply (@generaAnagrammi_anagrammi ucd (js "Roma") true (js "amor")).
  - exact ucd_stabile.
  - exact ucd_scalare.
  - apply stringa_valida_js.
  - reflexivity.
  - change (senza_surrogati [114; 111; 109; 97]%N). repeat constructor.
  - apply senza_contesto_ucd.
    change (~ In 931%N [114; 111; 109; 97]%N). simpl. intuition discriminate.
  - exact Hin.
Defined.



(** X11.  [raggruppaAnagrammi] returns the empty object when no two
    words of the list have the same key. *)
Theorem raggruppaAnagrammi_senza_anagrammi :
  forall toLowercase parole,
    NoDup (List.map (chiaveAnagramma toLowercase) parole) ->
    raggruppaAnagrammi toLowercase parole = Some [].
Proof.
  intros toLowercase parole H. rewrite raggruppaAnagrammi_eq. f_equal.
  set (T := tabellaK _ _).
  assert (forall e, In e (entries T) -> almeno_due e = false) as Hno.
  { intros [k g] He. apply (Permutation_in _ (entries_perm T)) in He.
    apply in_map_iff in He as (k' & Heq & _). injection Heq as -> <-.
    unfold almeno_due. cbn [snd]. apply Nat.ltb_ge.
    rewrite gruppo_di_length.
    now apply (proj1 (NoDup_count_occ (list_eq_dec N.eq_dec) _)). }
  induction (entries T) as [|e es IH]; [reflexivity|]. simpl.
  rewrite Hno by now left. apply IH. intros e' He'. apply Hno. now right.
Qed.

Lemma raggruppaAnagrammi_senza_anagrammi_witness :
  NoDup (List.map (chiaveAnagramma ucd) (List.map js ["casa"; "cane"]%string))
  /\ raggruppaAnagrammi ucd (List.map js ["casa"; "cane"]%string) = Some [].
Proof.
  assert (NoDup (List.map (chiaveAnagramma ucd)
                   (List.map js ["casa"; "cane"]%string))) as H.
  { change (NoDup [[97; 97; 99; 115]; [97; 99; 101; 110]]%N).
    repeat constructor; simpl; intuition discriminate. }
  split; [exact H|].
  exact (@raggruppaAnagrammi_senza_anagrammi ucd _ H).
Defined.

(** X12.  Two words of one group of [raggruppaAnagrammi] are words of the
    list, and [sonoAnagrammi] holds of them. *)
Theorem raggruppaAnagrammi_gruppi_anagrammi :
  forall toLowercase parole risultato chiave gruppo parola1 parola2,
    raggruppaAnagrammi toLowercase parole = Some risultato ->
    getOwn risultato chiave = Some gruppo ->
    In parola1 gruppo -> In parola2 gruppo ->
    In parola1 parole /\ In parola2 parole
    /\ sonoAnagrammi toLowercase parola1 parola2 = true.
Proof.
  intros toLowercase parole risultato chiave gruppo parola1 parola2.
  rewrite raggruppaAnagrammi_eq. intros H. injection H as <-.
  rewrite raggruppa_lookup. intros [-> _] H1 H2.
  apply filter_In in H1 as [H1 E1]. apply filter_In in H2 as [H2 E2].
  apply jsstring_eqb_eq in E1, E2.
  repeat split; try assumption.
  apply sonoAnagrammi_perm, chiave_eq_iff. congruence.
Qed.

Lemma raggruppaAnagrammi_gruppi_anagrammi_witness :
  In (js "roma") parole_demo /\ In (js "mora") parole_demo
  /\ sonoAnagrammi ucd (js "roma") (js "mora") = true.
Proof.
  apply (@raggruppaAnagrammi_gruppi_anagrammi ucd parole_demo
           [(js "amor", List.map js ["roma"; "amor"; "mora"]%string);
            (js "acen", List.map js ["cane"; "acne"]%string)]
           (js "amor")
           (List.map js ["roma"; "amor"; "mora"]%string)).
  - vm_compute. reflexivity.
  - reflexivity.
  - now left.
  - right. right. now left.
Defined.

(** X13.  When no key of a surviving group is an array index, the keys
    of the object returned by [raggruppaAnagrammi] are listed in the
    order of their first occurrence in the word list. *)
Theorem raggruppaAnagrammi_ordine_senza_indici :
  forall toLowercase parole risultato,
    raggruppaAnagrammi toLowercase parole = Some risultato ->
    (forall k, In k (chiavi_gruppi toLowercase parole) ->
               isArrayIndex k = false) ->
    keys risultato = chiavi_gruppi toLowercase parole.
Proof.
  intros toLowercase parole risultato H Hno.
  rewrite raggruppaAnagrammi_eq in H. injection H as <-.
  unfold keys. rewrite entries_filter_entries.
  set (T := tabellaK (gruppo_di toLowercase parole) (chiavi toLowercase parole)).
  unfold entries. rewrite filter_app, map_app.
  assert (List.map fst (filter almeno_due (List.map snd (indexProperties T)))
          = []) as ->.
  { apply Permutation_nil. symmetry.
    rewrite (Permutation_filter almeno_due (indexProperties_perm T)).
    unfold T. rewrite (@map_fst_filter_tabella toLowercase isArrayIndex).
    fold (chiavi_gruppi toLowercase parole).
    induction (chiavi_gruppi toLowercase parole) as [|k K IH];
      [reflexivity|].
    cbn [filter]. rewrite (Hno k) by now left.
    apply IH. intros k' Hk'. apply Hno. now right. }
  cbn [app]. unfold T.
  rewrite (@map_fst_filter_tabella toLowercase (fun k => negb (isArrayIndex k))).
  fold (chiavi_gruppi toLowercase parole).
  apply filter_id, Forall_forall. intros k Hk.
  now rewrite (Hno k Hk).
Qed.

Lemma raggruppaAnagrammi_ordine_senza_indici_witness :
  keys [(js "amor", List.map js ["roma"; "amor"; "mora"]%string);
        (js "acen", List.map js ["cane"; "acne"]%string)]
  = chiavi_gruppi ucd parole_demo.
Proof.
  apply (@raggruppaAnagrammi_ordine_senza_indici ucd parole_demo).
  - vm_compute. reflexivity.
  - intros k Hk.
    change (In k [js "amor"; js "acen"]) in Hk.
    destruct Hk as [<-|[<-|[]]]; reflexivity.
Defined.

(** X14.  [mescolaLettere] returns a word of at most one code unit
    unchanged, whatever the random source. *)
Theorem mescolaLettere_corta :
  forall estrai parola,
    length parola <= 1 -> mescolaLettere estrai parola = parola.
Proof.
  intros estrai parola H. unfold mescolaLettere, split. rewrite length_map.
  replace (length parola - 1) with 0 by lia. cbn [seq rev fold_left].
  apply join_undefined_Some.
Qed.

Lemma mescolaLettere_corta_witness :
  length (js "a") <= 1 /\ mescolaLettere (fun i => 7) (js "a") = js "a".
Proof.
  assert (length (js "a") <= 1) as H by (vm_compute; lia).
  split; [exact H|]. exact (@mescolaLettere_corta (fun i => 7) (js "a") H).
Defined.

(** X15.  Whatever indices j in [0, i] the loop draws, [anagrammaCasuale]
    returns an ordering of the normalized word, so a string without white
    space. *)
Theorem anagrammaCasuale_perm :
  forall toLowercase estrai parola,
    (forall i, 1 <= i < length (normalizza toLowercase parola) ->
               estrai i <= i) ->
    Permutation (anagrammaCasuale toLowercase estrai parola)
      (normalizza toLowercase parola)
    /\ Forall (fun u => isWhiteSpace u = false)
         (anagrammaCasuale toLowercase estrai parola).
Proof.
  intros toLowercase estrai parola H. unfold anagrammaCasuale.
  pose proof (mescolaLettere_perm estrai _ H) as HP. split; [exact HP|].
  eapply Permutation_Forall; [symmetry; exact HP|].
  apply normalizza_senza_spazi.
Qed.

Lemma anagrammaCasuale_perm_witness :
  Permutation (anagrammaCasuale ucd (fun i => i) (js "I ta lia no"))
    (normalizza ucd (js "I ta lia no"))
  /\ Forall (fun u => isWhiteSpace u = false)
       (anagrammaCasuale ucd (fun i => i) (js "I ta lia no")).
Proof.
  apply (@anagrammaCasuale_perm ucd (fun i => i) (js "I ta lia no")).
  intros i _. lia.
Defined.

(** X16.  The arrow function [fattoriale] of [contaAnagrammi] returns
    exactly n! up to n = 22. *)
Theorem fattoriale_esatto :
  forall n, n <= 22 -> Number_to_Z (fattoriale n) = Some (Z.of_nat (fact n)).
Proof.
  intros n H. rewrite <- factZ_fact.
  assert (In n (seq 0 23)) as Hin by (apply in_seq; lia).
  clear H. revert n Hin. apply Forall_forall.
  repeat (constructor; [vm_compute; reflexivity|]). constructor.
Qed.

Lemma fattoriale_esatto_witness :
  20 <= 22 /\ Number_to_Z (fattoriale 20) = Some (Z.of_nat (fact 20)).
Proof.
  assert (20 <= 22) as H by lia.
  split; [exact H|]. exact (@fattoriale_esatto 20 H).
Defined.

(** X17.  Each pair of [esempiAnagrammiItaliani] is a pair of different
    words of which [sonoAnagrammi] holds. *)
Theorem esempiAnagrammiItaliani_anagrammi :
  forallb
    (fun p => sonoAnagrammi ucd (fst p) (snd p)
              && negb (jsstring_eqb (fst p) (snd p)))
    esempiAnagrammiItaliani = true.
Proof. vm_compute. reflexivity. Qed.

(** X18.  For every word the number of strings of [generaAnagrammi]
    with deduplication is the multinomial coefficient n!/(k1!*...*km!)
    of the code units of the normalized word; [contaAnagrammi] returns
    exactly this number when the normalized word has at most 22 code
    units. *)
Theorem contaAnagrammi_generaAnagrammi :
  forall toLowercase parola,
    length (generaAnagrammi toLowercase parola true)
    = multinomiale (normalizza toLowercase parola)
    /\ (length (normalizza toLowercase parola) <= 22 ->
        Number_to_Z (contaAnagrammi toLowercase parola)
        = Some (Z.of_nat (length (generaAnagrammi toLowercase parola true)))).
Proof.
  intros toLowercase parola. rewrite generaAnagrammi_unici_length. split.
  - apply distinti_multinomiale.
  - apply contaAnagrammi_esatto.
Qed.

Lemma contaAnagrammi_generaAnagrammi_witness :
  length (normalizza ucd (js "Anna")) <= 22
  /\ Number_to_Z (contaAnagrammi ucd (js "Anna"))
     = Some (Z.of_nat (length (generaAnagrammi ucd (js "Anna") true))).
Proof.
  split.
  - vm_compute. lia.
  - apply (proj2 (contaAnagrammi_generaAnagrammi ucd (js "Anna"))).
    vm_compute. lia.
Defined.

(** X19.  When the normalized word is empty [contaAnagrammi] returns 1.
    When it has at most 22 code units [contaAnagrammi] returns an
    integer z >= 1, and the division is exact: z times the product of
    the factorials of the occurrence counts is n!. *)
Theorem contaAnagrammi_intero :
  forall toLowercase parola,
    (normalizza toLowercase parola = [] ->
     contaAnagrammi toLowercase parola = 1%float)
    /\ (length (normalizza toLowercase parola) <= 22 ->
        exists z,
          Number_to_Z (contaAnagrammi toLowercase parola) = Some z
          /\ (1 <= z)%Z
          /\ (z * Z.of_nat
                    (prodotto_fattoriali
                       (nodup N.eq_dec (normalizza toLowercase parola))
                       (normalizza toLowercase parola))
              = Z.of_nat (fact (length (normalizza toLowercase parola))))%Z).
Proof.
  intros toLowercase parola. split.
  - intros H. unfold contaAnagrammi, split. rewrite H. vm_compute. reflexivity.
  - intros H. exists (Z.of_nat (distinti (normalizza toLowercase parola))).
    split; [now apply contaAnagrammi_esatto|]. split.
    + pose proof (distinti_pos (normalizza toLowercase parola)). lia.
    + rewrite <- Nat2Z.inj_mul. f_equal. apply distinti_prodotto.
      * apply NoDup_nodup.
      * intros a Ha. now apply nodup_In.
Qed.

Lemma contaAnagrammi_intero_witness :
  length (normalizza ucd (js "Cane")) <= 22
  /\ exists z,
       Number_to_Z (contaAnagrammi ucd (js "Cane")) = Some z
       /\ (1 <= z)%Z
       /\ (z * Z.of_nat
                 (prodotto_fattoriali
                    (nodup N.eq_dec (normalizza ucd (js "Cane")))
                    (normalizza ucd (js "Cane")))
           = Z.of_nat (fact (length (normalizza ucd (js "Cane")))))%Z.
Proof.
  split.
  - vm_compute. lia.
  - apply (proj2 (contaAnagrammi_intero ucd (js "Cane"))). vm_compute. lia.
Defined.
